(** * Directory Manager: the path-addressed tree engine of [main.py]

    A shallow embedding of [Node] and [DirectoryManager] (src/main.py).

    - Python objects live in an object store: a [Node] is a cell of the
      store and a reference to it is the cell's index, so that two
      references to one object alias as they do in Python.  Objects
      that nothing refers to any more stay in the store.
    - A [dict] is an association list in insertion order.
    - A [str] is the string of bytes of its UTF-8 encoding, which
      orders as the code points do, and in which a byte below 128 is
      always a character of its own.  [strip] removes the white space
      of [str.isspace], the characters above 127 included.
    - The messages that the methods print are rendered as outcome
      values, and the line read by [_confirm_deletion] is an argument.
      The listing that [create], [delete] and [move] print at their end
      is [list_], which reads the store only; it is not part of their
      results.  Its recursion is as deep as the tree: the fuel of
      [list_] stands for the depth that the interpreter allows, and on
      a tree deeper than that the listing ends in [RecursionError] once
      the store has been updated.  The ANSI colour codes are left
      out. *)

From Stdlib Require Import ZArith Ascii.
From stdpp Require Import base list strings sorting.

(** ** Python [str] primitives used by the engine *)

Module PyStr.

Definition nonempty (s : string) : bool :=
  match s with EmptyString => false | String _ _ => true end.

(** [c in s] for a one-character [c]. *)
Fixpoint contains (c : ascii) (s : string) : bool :=
  match s with
  | EmptyString => false
  | String a s' => if Ascii.eqb a c then true else contains c s'
  end.

(** Index of the first / last occurrence of [c]. *)
Fixpoint index_of (c : ascii) (s : string) : option nat :=
  match s with
  | EmptyString => None
  | String a s' =>
      if Ascii.eqb a c then Some 0 else S <$> index_of c s'
  end.

Fixpoint rindex_of (c : ascii) (s : string) : option nat :=
  match s with
  | EmptyString => None
  | String a s' =>
      match rindex_of c s' with
      | Some i => Some (S i)
      | None => if Ascii.eqb a c then Some 0 else None
      end
  end.

(** [s.find(c)]: the index of the first occurrence, or [-1]. *)
Definition find (c : ascii) (s : string) : Z :=
  match index_of c s with Some i => Z.of_nat i | None => (-1)%Z end.

(** The slices [s[:n]] and [s[n:]]. *)
Fixpoint take (n : nat) (s : string) : string :=
  match n, s with
  | S n', String a s' => String a (take n' s')
  | _, _ => EmptyString
  end.

Fixpoint drop (n : nat) (s : string) : string :=
  match n, s with
  | S n', String _ s' => drop n' s'
  | _, _ => s
  end.

(** [s.split(c)]: every occurrence of [c] separates two pieces, empty
    pieces included; the result is never the empty list. *)
Fixpoint split (sep : ascii) (s : string) : list string :=
  match s with
  | EmptyString => [EmptyString]
  | String a s' =>
      if Ascii.eqb a sep then EmptyString :: split sep s'
      else match split sep s' with
           | w :: ws => String a w :: ws
           | [] => [String a EmptyString]
           end
  end.

(** The UTF-8 encoding of a code point below U+10000. *)
Definition utf8 (n : N) : string :=
  if (n <? 0x80)%N then String (ascii_of_N n) EmptyString
  else if (n <? 0x800)%N then
    String (ascii_of_N (0xC0 + n / 0x40))
      (String (ascii_of_N (0x80 + n mod 0x40)) EmptyString)
  else
    String (ascii_of_N (0xE0 + n / 0x1000))
      (String (ascii_of_N (0x80 + (n / 0x40) mod 0x40))
         (String (ascii_of_N (0x80 + n mod 0x40)) EmptyString)).

(** The characters that [str.isspace] accepts, which are those that
    [str.strip()] removes. *)
Definition white_space : list string :=
  utf8 <$>
    [0x09; 0x0A; 0x0B; 0x0C; 0x0D; 0x1C; 0x1D; 0x1E; 0x1F; 0x20;
     0x85; 0xA0; 0x1680;
     0x2000; 0x2001; 0x2002; 0x2003; 0x2004; 0x2005; 0x2006; 0x2007;
     0x2008; 0x2009; 0x200A;
     0x2028; 0x2029; 0x202F; 0x205F; 0x3000]%N.

(** [c.isspace()] for one character [c], given by its encoding. *)
Definition is_space (c : string) : bool :=
  existsb (String.eqb c) white_space.

(** [s.lstrip()]: the characters are taken off the front one by one;
    an encoding has one, two or three bytes. *)
Fixpoint lstrip (s : string) : string :=
  match s with
  | EmptyString => EmptyString
  | String a s1 =>
      if is_space (String a EmptyString) then lstrip s1
      else
        match s1 with
        | EmptyString => s
        | String b s2 =>
            if is_space (String a (String b EmptyString)) then lstrip s2
            else
              match s2 with
              | EmptyString => s
              | String c s3 =>
                  if is_space (String a (String b (String c EmptyString)))
                  then lstrip s3
                  else s
              end
        end
  end.

(** [s.rstrip()]: what is left of [s[1:]] is empty or starts with the
    bytes that follow [s[0]] in its character; the whole goes when it
    is one white-space character. *)
Fixpoint rstrip (s : string) : string :=
  match s with
  | EmptyString => EmptyString
  | String a s' =>
      let t := String a (rstrip s') in
      if is_space t then EmptyString else t
  end.

Definition strip (s : string) : string := rstrip (lstrip s).

(** [s.lower()] on the letters A to Z.  The engine lowers a string in
    [_confirm_deletion] only, to compare it with two words of ASCII
    letters, and [str.lower] maps no other character to one of their
    letters. *)
Definition lower_char (c : ascii) : ascii :=
  let n := nat_of_ascii c in
  if (65 <=? n) && (n <=? 90) then ascii_of_nat (n + 32) else c.

Fixpoint lower (s : string) : string :=
  match s with
  | EmptyString => EmptyString
  | String a s' => String (lower_char a) (lower s')
  end.

End PyStr.

(** ** Path helpers of [DirectoryManager] *)

(** [[p for p in path.split('/') if p]] *)
Definition segments (path : string) : list string :=
  List.filter PyStr.nonempty (PyStr.split "/" path).

(** The nine characters that [_is_valid_path] rejects in a segment:
    backslash, slash, colon, asterisk, question mark, double quote,
    less-than, greater-than and pipe. *)
Definition reserved_chars : list ascii :=
  ["\"; "/"; ":"; "*"; "?"; "034"; "<"; ">"; "|"]%char.

(** The test of one path segment in [_is_valid_path]:
    [not part or any(char in part for char in ...)] makes it invalid. *)
Definition valid_part (part : string) : bool :=
  negb (negb (PyStr.nonempty part)
        || existsb (fun char => PyStr.contains char part) reserved_chars).

Definition _is_valid_path (path : string) : bool :=
  if negb (PyStr.nonempty path) then false
  else forallb valid_part (segments path).

Fixpoint zip_all_eq (ps cs : list string) : bool :=
  match ps, cs with
  | p :: ps', c :: cs' => String.eqb p c && zip_all_eq ps' cs'
  | _, _ => true
  end.

Definition _is_subdirectory (parent_path child_path : string) : bool :=
  let parent_parts := segments parent_path in
  let child_parts := segments child_path in
  if length child_parts <=? length parent_parts then false
  else zip_all_eq parent_parts child_parts.

(** [[p.strip() for p in s.split(',') if p.strip()]] *)
Definition comma_pieces (s : string) : list string :=
  List.filter PyStr.nonempty (PyStr.strip <$> PyStr.split "," s).

Definition _expand_path_list (path : string) : list string :=
  if negb (PyStr.contains "," path) then [path]
  else if negb (PyStr.contains "/" path)
          || (PyStr.find "," path <? PyStr.find "/" path)%Z
  then comma_pieces path
  else
    match PyStr.rindex_of "/" path with
    | None => []  (* [rindex] raises; not reached, "/" is in [path] *)
    | Some i =>
        let base_path := PyStr.take (i + 1) path in
        let names := PyStr.split "," (PyStr.drop (String.length base_path) path) in
        (fun name => base_path +:+ PyStr.strip name)
          <$> List.filter (fun name => PyStr.nonempty (PyStr.strip name)) names
    end.

(** A string of white space only; a string that starts, or ends, with
    a white-space character. *)
Inductive all_white : string -> Prop :=
  | all_white_nil : all_white ""
  | all_white_cons c s :
      PyStr.is_space c = true -> all_white s -> all_white (c +:+ s).

Definition starts_white (s : string) : Prop :=
  exists c t, PyStr.is_space c = true /\ s = c +:+ t.

Definition ends_white (s : string) : Prop :=
  exists t c, PyStr.is_space c = true /\ s = t +:+ c.

(** ** Python [dict] with [str] keys, in insertion order *)

Abbreviation dict V := (list (string * V)).

Section dict_ops.
Context {V : Type}.

(** [d.get(k)], and [d[k]] where the key is known to be there. *)
Fixpoint dict_get (k : string) (d : dict V) : option V :=
  match d with
  | [] => None
  | (k', v) :: d' => if String.eqb k' k then Some v else dict_get k d'
  end.

(** [k in d] *)
Definition dict_mem (k : string) (d : dict V) : bool :=
  match dict_get k d with Some _ => true | None => false end.

(** [d[k] = v]: an existing key keeps its place, a new one goes last. *)
Fixpoint dict_set (k : string) (v : V) (d : dict V) : dict V :=
  match d with
  | [] => [(k, v)]
  | (k', v') :: d' =>
      if String.eqb k' k then (k', v) :: d' else (k', v') :: dict_set k v d'
  end.

(** [del d[k]], [d.pop(k)] *)
Definition dict_del (k : string) (d : dict V) : dict V :=
  List.filter (fun kv => negb (String.eqb kv.1 k)) d.

(** The truth value of [d]: a dict is true when it has an entry. *)
Definition dict_nonempty (d : dict V) : bool :=
  match d with [] => false | _ :: _ => true end.

(** [d.keys()] *)
Definition dict_keys (d : dict V) : list string := d.*1.
End dict_ops.

(** [sorted] on a list of [str]: ascending in the code-point order.  The
    order is total and antisymmetric, so every correct sort returns this
    list. *)
Definition sorted (l : list string) : list string := merge_sort String.le l.

(** ** The object store *)

(** [class Node]: [children] maps a name to a reference. *)
Record Node : Type := mkNode { name : string; children : dict nat }.

Abbreviation heap := (list Node).

(** [self.root] of the manager: the first object ever allocated. *)
Definition root : nat := 0.

(** [DirectoryManager.__init__] *)
Definition empty_tree : heap := [mkNode "" []].

(** The object behind a reference.  In Python every reference denotes an
    object; [wf] below says so of a store, and on such stores the
    default is never used. *)
Definition node_at (h : heap) (i : nat) : Node :=
  default (mkNode "" []) (h !! i).

Definition kids (h : heap) (i : nat) : dict nat := children (node_at h i).

(** An assignment to [node.children]; [name] is never reassigned. *)
Definition set_kids (h : heap) (i : nat) (d : dict nat) : heap :=
  <[i := mkNode (name (node_at h i)) d]> h.

(** [Node(part)]: a new object, referenced by the next free index. *)
Definition alloc (h : heap) (part : string) : heap * nat :=
  (h ++ [mkNode part []], length h).

(** [current.children[part] = Node(part)]; the new object's reference
    is [length h]. *)
Definition add_child (h : heap) (current : nat) (part : string) : heap :=
  let '(h1, fresh) := alloc h part in
  set_kids h1 current (dict_set part fresh (kids h1 current)).

(** The loop shared by [create] and [move]:
<<
    for part in parts:
       if part not in current.children:
          current.children[part] = Node(part)
       current = current.children[part]
>>
    It returns the store and the final [current]; after the assignment
    [current.children[part]] is the new object, [length h]. *)
Fixpoint mkdir_p (h : heap) (current : nat) (parts : list string) : heap * nat :=
  match parts with
  | [] => (h, current)
  | part :: rest =>
      match dict_get part (kids h current) with
      | Some child => mkdir_p h child rest
      | None => mkdir_p (add_child h current part) (length h) rest
      end
  end.

(** The loop of [_get_node_and_parent]: descend through existing
    children only; [None] is its early [return]. *)
Fixpoint walk (h : heap) (current : nat) (parts : list string) : option nat :=
  match parts with
  | [] => Some current
  | part :: rest =>
      match dict_get part (kids h current) with
      | None => None
      | Some child => walk h child rest
      end
  end.

(** [(parent_node, target_node, target_name)]; [None] is Python's. *)
Definition _get_node_and_parent (h : heap) (path : string)
  : option nat * option nat * string :=
  if negb (PyStr.nonempty path) || String.eqb path "/" then (None, Some root, "")
  else
    let parts := segments path in
    match last parts with
    | None => (None, Some root, "")
    | Some target_name =>
        match walk h root (removelast parts) with
        | None => (None, None, target_name)
        | Some current => (Some current, dict_get target_name (kids h current), target_name)
        end
    end.

(** ** create *)

Inductive create_outcome : Type := Created | CreateInvalidName.

(** The body of the loop of [create] over the expanded paths. *)
Definition create_one (h : heap) (single_path : string) : heap * create_outcome :=
  if negb (_is_valid_path single_path) then (h, CreateInvalidName)
  else ((mkdir_p h root (segments single_path)).1, Created).

Fixpoint create_loop (h : heap) (paths : list string)
  : heap * list (string * create_outcome) :=
  match paths with
  | [] => (h, [])
  | single_path :: rest =>
      let '(h1, o) := create_one h single_path in
      let '(h2, os) := create_loop h1 rest in
      (h2, (single_path, o) :: os)
  end.

(** One record per expanded sub-path, in order. *)
Definition create (h : heap) (path : string) : heap * list (string * create_outcome) :=
  create_loop h (_expand_path_list path).

(** The record [create] emits for a sub-path depends on the path alone. *)
Definition create_record (single_path : string) : string * create_outcome :=
  (single_path, if _is_valid_path single_path then Created else CreateInvalidName).

(** A valid path is present when all its segments can be walked. *)
Definition present (h : heap) (path : string) : Prop :=
  _is_valid_path path = true -> is_Some (walk h root (segments path)).

(** ** delete *)

Inductive delete_outcome : Type :=
  DeletedRoot | DeletedSubtree | NotFound | Cancelled.

(** [_confirm_deletion], given the line the user types at the prompt. *)
Definition _confirm_deletion (reply : string) : bool :=
  let confirm := PyStr.lower (PyStr.strip reply) in
  String.eqb confirm "yes" || String.eqb confirm "y".

(** The paths of the special case at the head of [delete]. *)
Definition root_forms : list string := [""; "/"; "root"; "root/"; "list"].

Definition in_strings (s : string) (l : list string) : bool :=
  existsb (String.eqb s) l.

(** The result carries the target of the confirmation prompt when
    [_confirm_deletion] was called, [None] when it was not. *)
Definition delete (h : heap) (path : string) (reply : string)
  : heap * delete_outcome * option string :=
  if in_strings path root_forms then
    let target := "root directory and all its contents" in
    if negb (_confirm_deletion reply) then (h, Cancelled, Some target)
    else (set_kids h root [], DeletedRoot, Some target)
  else
    let '(parent, node, target_name) := _get_node_and_parent h path in
    match parent with
    | None => (h, NotFound, None)
    | Some parent =>
        match dict_get target_name (kids h parent) with
        | None => (h, NotFound, None)
        | Some target_node =>
            if dict_nonempty (kids h target_node) then
              let target := "directory '" +:+ path +:+ "' and its subdirectories" in
              if negb (_confirm_deletion reply) then (h, Cancelled, Some target)
              else (set_kids h parent (dict_del target_name (kids h parent)),
                    DeletedSubtree, Some target)
            else (set_kids h parent (dict_del target_name (kids h parent)),
                  DeletedSubtree, None)
        end
    end.

(** ** move *)

(** The third check of [move]: the parent is there and has the name. *)
Definition resolves (h : heap) (path : string) : bool :=
  match _get_node_and_parent h path with
  | (Some parent, _, target_name) => dict_mem target_name (kids h parent)
  | (None, _, _) => false
  end.

Inductive move_outcome : Type :=
  | Moved
  | InvalidName
  | IdenticalPaths
  | SourceNotFound
  | DestinationIsDescendant
  | NameCollision.

Definition move (h : heap) (source destination : string) : heap * move_outcome :=
  if negb (_is_valid_path source) || negb (_is_valid_path destination)
  then (h, InvalidName)
  else if String.eqb source destination then (h, IdenticalPaths)
  else
    let '(src_parent, src_node, src_name) := _get_node_and_parent h source in
    match src_parent with
    | None => (h, SourceNotFound)
    | Some src_parent =>
        match dict_get src_name (kids h src_parent) with
        | None => (h, SourceNotFound)
        | Some node_to_move =>
            if _is_subdirectory source destination
            then (h, DestinationIsDescendant)
            else
              let '(h1, current) := mkdir_p h root (segments destination) in
              if dict_mem src_name (kids h1 current) then (h1, NameCollision)
              else
                let h2 := set_kids h1 current
                            (dict_set src_name node_to_move (kids h1 current)) in
                let h3 := set_kids h2 src_parent
                            (dict_del src_name (kids h2 src_parent)) in
                (h3, Moved)
        end
    end.

(** ** list *)

(** One printed line: the prefix, the branch glyph chosen by [is_last],
    and [child.name]; [indent] is the depth of the call that printed it. *)
Record entry : Type := mkEntry {
  e_indent : nat;
  e_prefix : string;
  e_is_last : bool;
  e_name : string
}.

Definition current_prefix (is_last : bool) : string :=
  if is_last then "└── " else "├── ".
Definition next_prefix (is_last : bool) : string :=
  if is_last then "    " else "│   ".

(** The text of a line. *)
Definition render (e : entry) : string :=
  e_prefix e +:+ current_prefix (e_is_last e) +:+ e_name e.

Section list_loop.
(** The recursive call [self.list(child, indent + 1, prefix + next_prefix)]. *)
Variable self_list : heap -> nat -> nat -> string -> option (heap * list entry).

(** [for i, name in enumerate(children)], from index [i] on; [n] is
    [len(children)].  The store is threaded through, each iteration
    reads [node.children[name]] from the store as it is then. *)
Fixpoint list_loop (h : heap) (node indent : nat) (prefix : string)
    (n i : nat) (names : list string) : option (heap * list entry) :=
  match names with
  | [] => Some (h, [])
  | name_ :: rest =>
      match dict_get name_ (kids h node) with
      | None => None
      | Some child =>
          let is_last := i =? n - 1 in
          let line := mkEntry indent prefix is_last (name (node_at h child)) in
          match self_list h child (S indent) (prefix +:+ next_prefix is_last) with
          | None => None
          | Some (h1, sub) =>
              match list_loop h1 node indent prefix n (S i) rest with
              | None => None
              | Some (h2, more) => Some (h2, line :: sub ++ more)
              end
          end
      end
  end.
End list_loop.

(** [list(node, indent, prefix)].  [fuel] bounds the depth of the
    recursion; [None] means the bound was reached (Python's recursion
    limit, on a store where [node] reaches itself). *)
Fixpoint list_ (fuel : nat) (h : heap) (node indent : nat) (prefix : string)
  : option (heap * list entry) :=
  match fuel with
  | 0 => None
  | S fuel' =>
      let children_ := sorted (dict_keys (kids h node)) in
      list_loop (list_ fuel') h node indent prefix (length children_) 0 children_
  end.

(** [list()] with its defaults: from the root. *)
Definition list_root (fuel : nat) (h : heap) : option (heap * list entry) :=
  list_ fuel h root 0 "".

(** ** Well-formed stores *)

(** What Python guarantees of any store (a key occurs once in a dict, a
    reference denotes an object) and what the operations maintain (a
    child is stored under its own name, names are valid segments). *)
Definition entry_ok (h : heap) (kv : string * nat) : Prop :=
  valid_part kv.1 = true /\ name <$> h !! kv.2 = Some kv.1.

Definition node_ok (h : heap) (n : Node) : Prop :=
  NoDup (dict_keys (children n)) /\ Forall (entry_ok h) (children n).

Definition wf (h : heap) : Prop :=
  is_Some (h !! root) /\ Forall (node_ok h) h.

(** No object is shared: it is the child of at most one object, under
    one name; and the root is nobody's child. *)
Definition unique_parent (h : heap) : Prop :=
  forall i k j i' k',
    dict_get k (kids h i) = Some j -> dict_get k' (kids h i') = Some j ->
    i = i' /\ k = k'.

Definition root_orphan (h : heap) : Prop :=
  forall i k, dict_get k (kids h i) <> Some root.

Definition tree_store (h : heap) : Prop :=
  wf h /\ unique_parent h /\ root_orphan h.

(** The objects that a walk passes, the start included. *)
Fixpoint visited (h : heap) (current : nat) (parts : list string) : list nat :=
  current ::
    match parts with
    | [] => []
    | part :: rest =>
        match dict_get part (kids h current) with
        | Some child => visited h child rest
        | None => []
        end
    end.

(** Every chain of children below [i] has at most [n] links. *)
Fixpoint height_le (n : nat) (h : heap) (i : nat) : bool :=
  match n with
  | 0 => negb (dict_nonempty (kids h i))
  | S n' => forallb (fun kv => height_le n' h kv.2) (kids h i)
  end.

(** [h'] has every entry of [h]. *)
Definition extends (h h' : heap) : Prop :=
  forall i k v, dict_get k (kids h i) = Some v -> dict_get k (kids h' i) = Some v.

(** The strict code-point order on names. *)
Definition name_lt (a b : string) : Prop := String.le a b /\ a <> b.

(** In a listing, the later siblings of a line are the lines of its
    indent that follow it before any line of a smaller indent. *)
Fixpoint later_siblings_above (d : nat) (nm : string) (out : list entry) : Prop :=
  match out with
  | [] => True
  | e :: out' =>
      if e_indent e <? d then True
      else (e_indent e = d -> name_lt nm (e_name e)) /\ later_siblings_above d nm out'
  end.

Fixpoint sorted_levels (out : list entry) : Prop :=
  match out with
  | [] => True
  | e :: out' => later_siblings_above (e_indent e) (e_name e) out' /\ sorted_levels out'
  end.

(** Two lines of one indent with no line of a smaller indent between
    them are siblings; the earlier one has the smaller name. *)
Definition siblings_in_order (out : list entry) : Prop :=
  forall l1 e1 mid e2 l2,
    out = l1 ++ e1 :: mid ++ e2 :: l2 ->
    e_indent e2 = e_indent e1 ->
    Forall (fun e => e_indent e1 <= e_indent e) mid ->
    name_lt (e_name e1) (e_name e2).

(** What a call [list(node, indent, prefix)] returns with any fuel
    above [n]: the store as it was, lines no shallower than its own
    indent, every level in order. *)
Definition list_returns (h : heap) (n : nat) (node d : nat) (prefix : string)
    (out : list entry) : Prop :=
  (forall fuel, n < fuel -> list_ fuel h node d prefix = Some (h, out)) /\
  Forall (fun e => d <= e_indent e) out /\
  sorted_levels out.

(** The order of a listing on paths from the node listed: a directory
    comes before those below it, and otherwise the first segment in
    which two paths differ decides. *)
Fixpoint path_lt (p q : list string) : Prop :=
  match p, q with
  | _, [] => False
  | [], _ :: _ => True
  | a :: p', b :: q' => name_lt a b \/ (a = b /\ path_lt p' q')
  end.

(** [e] has the indent and the name of the directory at path [p]. *)
Definition line_of (p : list string) (e : entry) : Prop :=
  e_indent e + 1 = length p /\ last p = Some (e_name e).

(** No key of [d] comes after [k]. *)
Definition is_greatest (k : string) (d : dict nat) : bool :=
  forallb (fun k' => bool_decide (String.le k' k)) (dict_keys d).

(** The line of the directory at path [p] below [node], in a listing
    of [node] at indent [d] with prefix [prefix]: its depth for indent,
    its own name, the glyph of a last sibling when no sibling has a
    greater name, and for prefix one cell for each directory above it
    on the path, blank below a last sibling and a bar otherwise. *)
Fixpoint line_at (h : heap) (node d : nat) (prefix : string) (p : list string)
  : option entry :=
  match p with
  | [] => None
  | k :: rest =>
      match dict_get k (kids h node) with
      | None => None
      | Some child =>
          let is_last := is_greatest k (kids h node) in
          match rest with
          | [] => Some (mkEntry d prefix is_last k)
          | _ :: _ => line_at h child (S d) (prefix +:+ next_prefix is_last) rest
          end
      end
  end.

(** What a call [list(node, indent, prefix)] returns with any fuel
    above [n], line by line: the store as it was, and one line for each
    directory below [node], the paths in order. *)
Definition list_lines (h : heap) (n : nat) (node d : nat) (prefix : string)
    (out : list entry) (paths : list (list string)) : Prop :=
  (forall fuel, n < fuel -> list_ fuel h node d prefix = Some (h, out)) /\
  Forall2 (fun p e => line_at h node d prefix p = Some e) paths out /\
  (forall p, p ∈ paths <-> p <> [] /\ is_Some (walk h node p)) /\
  StronglySorted path_lt paths.

(** ** Sequences of operations *)

Inductive command : Type :=
  | Create (path : string)
  | Delete (path reply : string)
  | Move (source destination : string).

Definition step (h : heap) (c : command) : heap :=
  match c with
  | Create path => (create h path).1
  | Delete path reply => (delete h path reply).1.1
  | Move source destination => (move h source destination).1
  end.

Definition run (cs : list command) : heap := foldl step empty_tree cs.

(** * Properties *)

(** ** Paths *)

Lemma zip_all_eq_app (l ext : list string) : zip_all_eq l (l ++ ext) = true.
Proof.
  induction l as [|p l IH]; simpl; [by destruct ext|].
  by rewrite String.eqb_refl.
Qed.

Lemma zip_all_eq_prefix (ps cs : list string) :
  length ps <= length cs -> zip_all_eq ps cs = true -> exists ext, cs = ps ++ ext.
Proof.
  revert cs. induction ps as [|p ps IH]; intros cs Hlen Hz; [by exists cs|].
  destruct cs as [|c cs]; simpl in *; [lia|].
  apply andb_prop in Hz as [Hpc Hz]. apply String.eqb_eq in Hpc as ->.
  destruct (IH cs) as [ext ->]; [lia|done|]. by exists ext.
Qed.

(** [_is_subdirectory] tests for a strict prefix of segment sequences. *)
Lemma _is_subdirectory_spec (A B : string) :
  _is_subdirectory A B = true <->
  exists ext, ext <> [] /\ segments B = segments A ++ ext.
Proof.
  unfold _is_subdirectory. split.
  - destruct (Nat.leb_spec (length (segments B)) (length (segments A))) as [|Hlt];
      [done|]. intros Hz.
    apply zip_all_eq_prefix in Hz as [ext Hext]; [|lia].
    exists ext. split; [|done]. intros ->.
    rewrite Hext, length_app in Hlt. simpl in Hlt. lia.
  - intros (ext & Hne & ->).
    destruct (Nat.leb_spec (length (segments A ++ ext)) (length (segments A))) as [Hle|_].
    + rewrite length_app in Hle. destruct ext; [done|simpl in Hle; lia].
    + apply zip_all_eq_app.
Qed.

Lemma _is_valid_path_parts (path : string) :
  _is_valid_path path = true -> Forall (fun part => valid_part part = true) (segments path).
Proof.
  unfold _is_valid_path. destruct (negb (PyStr.nonempty path)); [done|].
  intros H. apply Forall_forall. intros part Hin.
  rewrite forallb_forall in H. apply H. by apply list_elem_of_In.
Qed.

Lemma parts_valid_path (path : string) :
  PyStr.nonempty path = true ->
  Forall (fun part => valid_part part = true) (segments path) ->
  _is_valid_path path = true.
Proof.
  intros Hne H. unfold _is_valid_path. rewrite Hne. simpl.
  apply forallb_forall. intros part Hin.
  rewrite Forall_forall in H. apply H. by apply list_elem_of_In.
Qed.

(** ** Dicts *)

Section dict_facts.
Context {V : Type}.
Implicit Types (d : dict V) (k : string) (v : V).

Lemma dict_get_set_eq k v d : dict_get k (dict_set k v d) = Some v.
Proof.
  induction d as [|[k' v'] d IH]; simpl; [by rewrite String.eqb_refl|].
  destruct (String.eqb k' k) eqn:E; simpl; by rewrite E.
Qed.

Lemma dict_get_set_ne k k' v d :
  k <> k' -> dict_get k' (dict_set k v d) = dict_get k' d.
Proof.
  intros Hne. induction d as [|[k0 v0] d IH]; simpl.
  - by apply String.eqb_neq in Hne as ->.
  - destruct (String.eqb k0 k) eqn:E; simpl; [|by rewrite IH].
    apply String.eqb_eq in E as ->. by apply String.eqb_neq in Hne as ->.
Qed.

Lemma dict_set_new k v d : dict_get k d = None -> dict_set k v d = d ++ [(k, v)].
Proof.
  induction d as [|[k' v'] d IH]; simpl; [done|].
  destruct (String.eqb k' k); [done|]. intros H. by rewrite IH.
Qed.

Lemma dict_get_del_eq k d : dict_get k (dict_del k d) = None.
Proof.
  induction d as [|[k' v'] d IH]; simpl; [done|].
  destruct (String.eqb k' k) eqn:E; simpl; [done|]. by rewrite E.
Qed.

Lemma dict_get_del_ne k k' d :
  k <> k' -> dict_get k' (dict_del k d) = dict_get k' d.
Proof.
  intros Hne. induction d as [|[k0 v0] d IH]; simpl; [done|].
  destruct (String.eqb k0 k) eqn:E; simpl.
  - apply String.eqb_eq in E as ->. by apply String.eqb_neq in Hne as ->.
  - by rewrite IH.
Qed.

Lemma dict_get_Some_elem k v d : dict_get k d = Some v -> (k, v) ∈ d.
Proof.
  induction d as [|[k' v'] d IH]; simpl; [done|].
  destruct (String.eqb k' k) eqn:E.
  - apply String.eqb_eq in E as ->. intros [= ->]. left.
  - intros H. right. auto.
Qed.

Lemma dict_get_None_keys k d : dict_get k d = None <-> k ∉ dict_keys d.
Proof.
  unfold dict_keys. induction d as [|[k' v'] d IH]; simpl.
  - split; [|done]. intros _ H. inversion H.
  - rewrite not_elem_of_cons. destruct (String.eqb k' k) eqn:E.
    + apply String.eqb_eq in E as ->. split; [done|]. by intros [? _].
    + apply String.eqb_neq in E. rewrite IH. intuition congruence.
Qed.

Lemma dict_mem_true k d : dict_mem k d = true <-> is_Some (dict_get k d).
Proof.
  unfold dict_mem. destruct (dict_get k d); split; eauto; try done.
Qed.

Lemma dict_mem_false k d : dict_mem k d = false <-> dict_get k d = None.
Proof. unfold dict_mem. by destruct (dict_get k d). Qed.

Lemma dict_del_elem kv k d : kv ∈ dict_del k d -> kv ∈ d.
Proof.
  unfold dict_del. intros H. apply list_elem_of_In in H.
  apply filter_In in H as [H _]. by apply list_elem_of_In.
Qed.

Lemma dict_del_keys_NoDup k d : NoDup (dict_keys d) -> NoDup (dict_keys (dict_del k d)).
Proof.
  unfold dict_keys, dict_del.
  induction d as [|[k' v'] d IH]; simpl; [done|].
  rewrite NoDup_cons. intros [Hnot Hnd].
  destruct (negb (String.eqb k' k)); simpl; [|auto].
  apply NoDup_cons. split; [|auto].
  intros Hin. apply Hnot.
  apply list_elem_of_fmap in Hin as ([k0 v0] & -> & Hin).
  apply list_elem_of_fmap. exists (k0, v0). split; [done|].
  by apply (dict_del_elem _ k).
Qed.
End dict_facts.

(** ** The store *)

Lemma length_set_kids h i d : length (set_kids h i d) = length h.
Proof. apply length_insert. Qed.

Lemma kids_set_kids_eq h i d : i < length h -> kids (set_kids h i d) i = d.
Proof.
  intros Hi. unfold kids, node_at, set_kids.
  by rewrite list_lookup_insert_eq.
Qed.

Lemma kids_set_kids_ne h i j d : i <> j -> kids (set_kids h i d) j = kids h j.
Proof.
  intros Hne. unfold kids, node_at, set_kids.
  by rewrite list_lookup_insert_ne.
Qed.

Lemma name_set_kids h i j d : name <$> set_kids h i d !! j = name <$> h !! j.
Proof.
  unfold set_kids, node_at. destruct (decide (i = j)) as [->|Hne].
  - destruct (h !! j) as [n|] eqn:E.
    + rewrite list_lookup_insert_eq; [done|]. by eapply lookup_lt_Some.
    + rewrite list_insert_ge; [by rewrite E|]. by apply lookup_ge_None.
  - by rewrite list_lookup_insert_ne.
Qed.

Lemma kids_app_l h n i : i < length h -> kids (h ++ [n]) i = kids h i.
Proof. intros Hi. unfold kids, node_at. by rewrite lookup_app_l. Qed.

Lemma kids_app_fresh h n : kids (h ++ [n]) (length h) = children n.
Proof.
  unfold kids, node_at. rewrite lookup_app_r; [|lia].
  by rewrite Nat.sub_diag.
Qed.

Lemma kids_dangling h i : length h <= i -> kids h i = [].
Proof.
  intros Hi. unfold kids, node_at. by rewrite (proj2 (lookup_ge_None h i)).
Qed.

Lemma dict_get_kids_lt h i k v : dict_get k (kids h i) = Some v -> i < length h.
Proof.
  intros H. destruct (Nat.lt_ge_cases i (length h)) as [|Hge]; [done|].
  by rewrite (kids_dangling _ _ Hge) in H.
Qed.

(** ** Well-formedness *)

Lemma wf_lookup h :
  wf h <-> is_Some (h !! root) /\ forall i n, h !! i = Some n -> node_ok h n.
Proof. unfold wf. by rewrite Forall_lookup. Qed.

Lemma wf_empty_tree : wf empty_tree.
Proof.
  apply wf_lookup. split; [by eexists|].
  intros [|i] n H; simplify_eq/=. split; [apply NoDup_nil_2|apply Forall_nil_2].
Qed.

Lemma wf_kids h i k j :
  wf h -> dict_get k (kids h i) = Some j ->
  valid_part k = true /\ name <$> h !! j = Some k.
Proof.
  intros [_ Hwf]%wf_lookup Hget. unfold kids, node_at in Hget.
  destruct (h !! i) as [n|] eqn:E; [|done]. simpl in Hget.
  destruct (Hwf i n E) as [_ Hall].
  apply dict_get_Some_elem in Hget.
  rewrite Forall_forall in Hall. apply (Hall _ Hget).
Qed.

Lemma wf_kids_lt h i k j : wf h -> dict_get k (kids h i) = Some j -> j < length h.
Proof.
  intros Hwf Hget. destruct (wf_kids _ _ _ _ Hwf Hget) as [_ Hn].
  destruct (h !! j) eqn:E; [|done]. by eapply lookup_lt_Some.
Qed.

Lemma wf_kids_NoDup h i : wf h -> NoDup (dict_keys (kids h i)).
Proof.
  intros [_ Hwf]%wf_lookup. unfold kids, node_at.
  destruct (h !! i) as [n|] eqn:E; simpl; [|apply NoDup_nil_2].
  by destruct (Hwf i n E).
Qed.

Lemma wf_kids_Forall h i : wf h -> Forall (entry_ok h) (kids h i).
Proof.
  intros [_ Hwf]%wf_lookup. unfold kids, node_at.
  destruct (h !! i) as [n|] eqn:E; simpl; [|apply Forall_nil_2].
  by destruct (Hwf i n E).
Qed.

Lemma node_ok_mono h h' n :
  (forall j k, name <$> h !! j = Some k -> name <$> h' !! j = Some k) ->
  node_ok h n -> node_ok h' n.
Proof.
  intros Hmono [Hnd Hall]. split; [done|].
  eapply Forall_impl; [exact Hall|]. intros kv [Hv Hn]. split; auto.
Qed.

Lemma wf_set_kids h i d :
  wf h -> NoDup (dict_keys d) -> Forall (entry_ok h) d -> wf (set_kids h i d).
Proof.
  intros Hwf Hnd Hall. pose proof Hwf as [Hroot Hnodes]%wf_lookup.
  assert (Hmono : forall j k, name <$> h !! j = Some k ->
                              name <$> set_kids h i d !! j = Some k).
  { intros j k. by rewrite name_set_kids. }
  apply wf_lookup. split.
  - apply lookup_lt_is_Some. rewrite length_set_kids. by apply lookup_lt_is_Some.
  - intros j n Hj. unfold set_kids in Hj.
    destruct (decide (i = j)) as [->|Hne].
    + assert (j < length h) as Hlt.
      { apply lookup_lt_Some in Hj. by rewrite length_insert in Hj. }
      rewrite list_lookup_insert_eq in Hj by done.
      simplify_eq. split; [done|].
      eapply Forall_impl; [exact Hall|]. intros kv [Hv Hn]. split; auto.
    + rewrite list_lookup_insert_ne in Hj by done.
      eapply node_ok_mono; eauto.
Qed.

Lemma wf_alloc h part : wf h -> wf (h ++ [mkNode part []]).
Proof.
  intros [Hroot Hnodes]%wf_lookup.
  assert (Hmono : forall j k, name <$> h !! j = Some k ->
                              name <$> (h ++ [mkNode part []]) !! j = Some k).
  { intros j k Hj. rewrite lookup_app_l; [done|].
    destruct (h !! j) eqn:E; [by eapply lookup_lt_Some|done]. }
  apply wf_lookup. split.
  - apply lookup_lt_is_Some. rewrite length_app. simpl.
    apply lookup_lt_is_Some in Hroot. lia.
  - intros j n Hj. apply lookup_app_Some in Hj as [Hj|[_ Hj]].
    + eapply node_ok_mono; eauto.
    + apply list_lookup_singleton_Some in Hj as [_ <-].
      split; [apply NoDup_nil_2|apply Forall_nil_2].
Qed.

(** ** The [mkdir -p] loop *)

Lemma extends_refl h : extends h h.
Proof. by intros i k v. Qed.

Lemma extends_trans h1 h2 h3 : extends h1 h2 -> extends h2 h3 -> extends h1 h3.
Proof. intros H12 H23 i k v H. auto. Qed.

Lemma walk_extends h h' c parts c' :
  extends h h' -> walk h c parts = Some c' -> walk h' c parts = Some c'.
Proof.
  intros Hext. revert c. induction parts as [|part rest IH]; intros c; simpl; [done|].
  destruct (dict_get part (kids h c)) as [child|] eqn:E; [|done].
  rewrite (Hext _ _ _ E). apply IH.
Qed.

Lemma walk_app h c parts1 parts2 :
  walk h c (parts1 ++ parts2) = walk h c parts1 ≫= fun c1 => walk h c1 parts2.
Proof.
  revert c. induction parts1 as [|part rest IH]; intros c; simpl; [done|].
  destruct (dict_get part (kids h c)); simpl; [apply IH|done].
Qed.

(** Where every part is there already, the loop creates nothing. *)
Lemma mkdir_p_walk h c parts c' :
  walk h c parts = Some c' -> mkdir_p h c parts = (h, c').
Proof.
  revert c. induction parts as [|part rest IH]; intros c; simpl; [by intros [= ->]|].
  destruct (dict_get part (kids h c)); [apply IH|done].
Qed.

Lemma mkdir_p_missing h c part rest :
  dict_get part (kids h c) = None ->
  mkdir_p h c (part :: rest) = mkdir_p (add_child h c part) (length h) rest.
Proof. intros H. simpl. by rewrite H. Qed.

Lemma kids_add_child_parent h c part :
  c < length h -> dict_get part (kids h c) = None ->
  kids (add_child h c part) c = kids h c ++ [(part, length h)].
Proof.
  intros Hc Hget. unfold add_child, alloc. cbv beta iota zeta.
  rewrite kids_set_kids_eq by (rewrite length_app; simpl; lia).
  rewrite kids_app_l by done. by apply dict_set_new.
Qed.

Lemma kids_add_child_fresh h c part :
  c < length h -> kids (add_child h c part) (length h) = [].
Proof.
  intros Hc. unfold add_child, alloc. cbv beta iota zeta.
  rewrite kids_set_kids_ne by lia. by rewrite kids_app_fresh.
Qed.

Lemma kids_add_child_other h c part i :
  i <> c -> i < length h -> kids (add_child h c part) i = kids h i.
Proof.
  intros Hne Hi. unfold add_child, alloc. cbv beta iota zeta.
  rewrite kids_set_kids_ne by done. by apply kids_app_l.
Qed.

Lemma length_add_child h c part : length (add_child h c part) = S (length h).
Proof. unfold add_child, alloc. cbv beta iota zeta. rewrite length_set_kids, length_app. simpl. lia. Qed.
Lemma wf_add_child h c part :
  wf h -> c < length h -> dict_get part (kids h c) = None ->
  valid_part part = true -> wf (add_child h c part).
Proof.
  intros Hwf Hc Hget Hv. unfold add_child, alloc. cbv beta iota zeta.
  pose proof (wf_alloc h part Hwf) as Hwf1.
  rewrite kids_app_l by done. rewrite dict_set_new by done.
  apply wf_set_kids; [done| |].
  - unfold dict_keys. rewrite fmap_app. simpl. apply NoDup_app.
    split; [by apply wf_kids_NoDup|]. split; [|apply NoDup_singleton].
    intros k Hk ->%list_elem_of_singleton. by apply dict_get_None_keys in Hget.
  - apply Forall_app. split.
    + rewrite <- (kids_app_l h (mkNode part []) c) by done. by apply wf_kids_Forall.
    + apply Forall_singleton. split; [done|]. simpl.
      rewrite lookup_app_r by lia. by rewrite Nat.sub_diag.
Qed.

Lemma extends_add_child h c part :
  c < length h -> dict_get part (kids h c) = None -> extends h (add_child h c part).
Proof.
  intros Hc Hget i k v Hi.
  pose proof (dict_get_kids_lt _ _ _ _ Hi) as Hlt.
  destruct (decide (i = c)) as [->|Hne].
  - rewrite kids_add_child_parent by done.
    rewrite <- dict_set_new by done. rewrite dict_get_set_ne; [done|].
    intros ->. congruence.
  - by rewrite kids_add_child_other.
Qed.

Lemma dict_get_add_child h c part :
  c < length h -> dict_get part (kids h c) = None ->
  dict_get part (kids (add_child h c part) c) = Some (length h).
Proof.
  intros Hc Hget. rewrite kids_add_child_parent by done.
  rewrite <- dict_set_new by done. apply dict_get_set_eq.
Qed.

(** The loop keeps the store well formed, only adds entries, and ends
    on the node that the parts now lead to. *)
Lemma mkdir_p_spec parts : forall h c h' c',
  wf h -> c < length h -> Forall (fun part => valid_part part = true) parts ->
  mkdir_p h c parts = (h', c') ->
  wf h' /\ c' < length h' /\ extends h h' /\ walk h' c parts = Some c'.
Proof.
  induction parts as [|part rest IH]; intros h c h' c' Hwf Hc Hv Hm.
  { simpl in Hm. simplify_eq. auto using extends_refl. }
  apply Forall_cons in Hv as [Hv Hvs].
  destruct (dict_get part (kids h c)) as [child|] eqn:E.
  - simpl in Hm. rewrite E in Hm.
    destruct (IH _ _ _ _ Hwf (wf_kids_lt _ _ _ _ Hwf E) Hvs Hm) as (?&?&Hext&?).
    split_and!; try done. simpl. by rewrite (Hext _ _ _ E).
  - rewrite mkdir_p_missing in Hm by done.
    apply IH in Hm as (?&?&Hext&?); [|by apply wf_add_child| |done].
    2:{ rewrite length_add_child. lia. }
    split_and!; try done.
    + eapply extends_trans; [|exact Hext]. by apply extends_add_child.
    + simpl. by rewrite (Hext _ _ _ (dict_get_add_child _ _ _ Hc E)).
Qed.

Lemma mkdir_p_from_leaf parts : forall h c h' c',
  c < length h -> kids h c = [] -> mkdir_p h c parts = (h', c') -> kids h' c' = [].
Proof.
  induction parts as [|part rest IH]; intros h c h' c' Hc Hk Hm.
  { simpl in Hm. by simplify_eq. }
  rewrite mkdir_p_missing in Hm by (by rewrite Hk).
  eapply IH; [| |exact Hm].
  - rewrite length_add_child. lia.
  - by apply kids_add_child_fresh.
Qed.

(** The loop either creates nothing or ends on a node it has just
    created, which has no child yet. *)
Lemma mkdir_p_same_or_leaf parts : forall h c h' c',
  wf h -> c < length h -> mkdir_p h c parts = (h', c') ->
  h' = h \/ kids h' c' = [].
Proof.
  induction parts as [|part rest IH]; intros h c h' c' Hwf Hc Hm.
  { simpl in Hm. simplify_eq. by left. }
  destruct (dict_get part (kids h c)) as [child|] eqn:E.
  - simpl in Hm. rewrite E in Hm.
    eapply IH; [done| |exact Hm]. by eapply wf_kids_lt.
  - rewrite mkdir_p_missing in Hm by done. right.
    eapply mkdir_p_from_leaf; [| |exact Hm].
    + rewrite length_add_child. lia.
    + by apply kids_add_child_fresh.
Qed.

(** ** move: the checks *)

Lemma move_invalid h source destination :
  _is_valid_path source = false \/ _is_valid_path destination = false ->
  move h source destination = (h, InvalidName).
Proof. unfold move. by intros [-> | ->]; rewrite ?orb_true_r. Qed.

Lemma move_identical h source :
  _is_valid_path source = true -> move h source source = (h, IdenticalPaths).
Proof. intros Hv. unfold move. by rewrite Hv, String.eqb_refl. Qed.

Lemma move_not_found h source destination :
  _is_valid_path source = true -> _is_valid_path destination = true ->
  source <> destination -> resolves h source = false ->
  move h source destination = (h, SourceNotFound).
Proof.
  intros Hs Hd Hne Hr. unfold move, resolves in *. rewrite Hs, Hd. simpl.
  apply String.eqb_neq in Hne as ->.
  destruct (_get_node_and_parent h source) as [[[sp|] nd] nm]; [|done].
  apply dict_mem_false in Hr. by rewrite Hr.
Qed.

(** Past the first three checks [move] has the source's parent and the
    node to move in hand. *)
Lemma move_found h source destination :
  _is_valid_path source = true -> _is_valid_path destination = true ->
  source <> destination -> resolves h source = true ->
  exists src_parent src_node src_name node_to_move,
    _get_node_and_parent h source = (Some src_parent, src_node, src_name) /\
    dict_get src_name (kids h src_parent) = Some node_to_move /\
    move h source destination =
      if _is_subdirectory source destination then (h, DestinationIsDescendant)
      else
        let '(h1, current) := mkdir_p h root (segments destination) in
        if dict_mem src_name (kids h1 current) then (h1, NameCollision)
        else
          let h2 := set_kids h1 current
                      (dict_set src_name node_to_move (kids h1 current)) in
          (set_kids h2 src_parent (dict_del src_name (kids h2 src_parent)), Moved).
Proof.
  intros Hs Hd Hne Hr. unfold move, resolves in *. rewrite Hs, Hd. simpl.
  apply String.eqb_neq in Hne as ->.
  destruct (_get_node_and_parent h source) as [[[sp|] nd] nm]; [|done].
  apply dict_mem_true in Hr as [m Hm]. rewrite Hm.
  by exists sp, nd, nm, m.
Qed.

Lemma wf_root_lt h : wf h -> root < length h.
Proof. intros [Hroot _]. by apply lookup_lt_is_Some. Qed.

(** ** Every operation keeps the store well formed *)

Lemma wf_del_child h i k : wf h -> wf (set_kids h i (dict_del k (kids h i))).
Proof.
  intros Hwf. apply wf_set_kids; [done| |].
  - by apply dict_del_keys_NoDup, wf_kids_NoDup.
  - apply Forall_forall. intros kv Hin%dict_del_elem.
    pose proof (wf_kids_Forall h i Hwf) as Hall.
    rewrite Forall_forall in Hall. auto.
Qed.

Lemma create_one_wf h single_path : wf h -> wf (create_one h single_path).1.
Proof.
  intros Hwf. unfold create_one.
  destruct (_is_valid_path single_path) eqn:Hv; simpl; [|done].
  destruct (mkdir_p h root (segments single_path)) as [h' c'] eqn:Hm.
  by destruct (mkdir_p_spec _ _ _ _ _ Hwf (wf_root_lt _ Hwf)
                 (_is_valid_path_parts _ Hv) Hm).
Qed.

Lemma create_loop_wf paths : forall h, wf h -> wf (create_loop h paths).1.
Proof.
  induction paths as [|p paths IH]; intros h Hwf; simpl; [done|].
  pose proof (create_one_wf h p Hwf) as H1.
  destruct (create_one h p) as [h1 o]. simpl in H1.
  pose proof (IH h1 H1) as H2.
  by destruct (create_loop h1 paths) as [h2 os].
Qed.

Lemma create_wf h path : wf h -> wf (create h path).1.
Proof. apply create_loop_wf. Qed.

Lemma delete_wf h path reply : wf h -> wf (delete h path reply).1.1.
Proof.
  intros Hwf. unfold delete.
  destruct (in_strings path root_forms).
  { destruct (negb (_confirm_deletion reply)); simpl; [done|].
    apply wf_set_kids; [done|apply NoDup_nil_2|apply Forall_nil_2]. }
  destruct (_get_node_and_parent h path) as [[[parent|] nd] nm]; [|done].
  destruct (dict_get nm (kids h parent)) as [target|]; [|done].
  destruct (dict_nonempty (kids h target)); [destruct (negb _)|]; simpl;
    try done; by apply wf_del_child.
Qed.

Lemma move_wf h source destination : wf h -> wf (move h source destination).1.
Proof.
  intros Hwf.
  destruct (_is_valid_path source) eqn:Hs; [|by rewrite move_invalid by auto].
  destruct (_is_valid_path destination) eqn:Hd; [|by rewrite move_invalid by auto].
  destruct (decide (source = destination)) as [->|Hne];
    [by rewrite move_identical|].
  destruct (resolves h source) eqn:Hr; [|by rewrite move_not_found].
  destruct (move_found h _ _ Hs Hd Hne Hr) as (sp&nd&nm&m&_&Hget&->).
  destruct (_is_subdirectory source destination); [done|].
  destruct (mkdir_p h root (segments destination)) as [h1 current] eqn:Hmk.
  destruct (mkdir_p_spec _ _ _ _ _ Hwf (wf_root_lt _ Hwf)
              (_is_valid_path_parts _ Hd) Hmk) as (Hwf1 & Hcur & Hext & _).
  destruct (dict_mem nm (kids h1 current)) eqn:Hmem; [done|]. simpl.
  apply dict_mem_false in Hmem.
  apply wf_del_child, wf_set_kids; [done| |].
  - rewrite dict_set_new by done. unfold dict_keys. rewrite fmap_app. simpl.
    apply NoDup_app. split; [by apply wf_kids_NoDup|].
    split; [|apply NoDup_singleton].
    intros k Hk ->%list_elem_of_singleton. by apply dict_get_None_keys in Hmem.
  - rewrite dict_set_new by done. apply Forall_app.
    split; [by apply wf_kids_Forall|]. apply Forall_singleton.
    apply (wf_kids h1 sp nm m Hwf1). by apply Hext.
Qed.

Lemma step_wf h c : wf h -> wf (step h c).
Proof.
  destruct c; simpl; [apply create_wf|apply delete_wf|apply move_wf].
Qed.

(** Every store reached from the empty tree is well formed. *)
Lemma run_wf cs : wf (run cs).
Proof.
  unfold run. generalize wf_empty_tree. generalize empty_tree.
  induction cs as [|c cs IH]; intros h Hwf; simpl; [done|].
  by apply IH, step_wf.
Qed.

(** ** Resolution *)

Lemma segments_last_split (parts : list string) nm :
  last parts = Some nm -> parts = removelast parts ++ [nm].
Proof.
  intros [l ->]%last_Some. by rewrite removelast_last.
Qed.

(** What [_get_node_and_parent] has walked when it reports a parent. *)
Lemma _get_node_and_parent_Some h path parent nd nm :
  _get_node_and_parent h path = (Some parent, nd, nm) ->
  PyStr.nonempty path = true /\
  segments path = removelast (segments path) ++ [nm] /\
  walk h root (removelast (segments path)) = Some parent /\
  nd = dict_get nm (kids h parent).
Proof.
  unfold _get_node_and_parent.
  destruct (PyStr.nonempty path); simpl; [|done].
  destruct (String.eqb path "/"); [done|].
  destruct (last (segments path)) as [nm'|] eqn:Hlast; [|done].
  destruct (walk h root (removelast (segments path))) as [cur|] eqn:Hw; [|done].
  intros [= <- <- <-]. split_and!; try done. by apply segments_last_split.
Qed.

(** A path whose segments can all be walked resolves to a present node. *)
Lemma _get_node_and_parent_walk h path c :
  PyStr.nonempty path = true -> walk h root (segments path) = Some c ->
  exists parent nm, _get_node_and_parent h path = (parent, Some c, nm).
Proof.
  intros Hne Hw. unfold _get_node_and_parent. rewrite Hne. simpl.
  destruct (String.eqb path "/") eqn:E.
  { apply String.eqb_eq in E as ->. vm_compute in Hw. simplify_eq. by eexists _, _. }
  destruct (last (segments path)) as [nm|] eqn:Hlast.
  - pose proof (segments_last_split _ _ Hlast) as Hsplit.
    rewrite Hsplit, walk_app in Hw.
    destruct (walk h root (removelast (segments path))) as [cur|]; [|done].
    simpl in Hw. destruct (dict_get nm (kids h cur)) as [c0|] eqn:Hget; [|done].
    simplify_eq. by eexists _, _.
  - apply last_None in Hlast. rewrite Hlast in Hw. simpl in Hw. simplify_eq.
    by eexists _, _.
Qed.

Lemma walk_valid h parts : forall c c',
  wf h -> walk h c parts = Some c' -> Forall (fun part => valid_part part = true) parts.
Proof.
  induction parts as [|part rest IH]; intros c c' Hwf Hw; [apply Forall_nil_2|].
  simpl in Hw. destruct (dict_get part (kids h c)) as [child|] eqn:E; [|done].
  apply Forall_cons. split; [by destruct (wf_kids _ _ _ _ Hwf E)|eauto].
Qed.

(** In a well-formed store only valid paths resolve. *)
Lemma resolves_valid h path :
  wf h -> resolves h path = true -> _is_valid_path path = true.
Proof.
  intros Hwf Hr. unfold resolves in Hr.
  destruct (_get_node_and_parent h path) as [[[parent|] nd] nm] eqn:Hg; [|done].
  apply _get_node_and_parent_Some in Hg as (Hne & Hsplit & Hw & _).
  apply dict_mem_true in Hr as [m Hm].
  apply parts_valid_path; [done|]. rewrite Hsplit. apply Forall_app. split.
  - by eapply walk_valid.
  - apply Forall_singleton. by destruct (wf_kids _ _ _ _ Hwf Hm).
Qed.

(** ** create *)

Lemma create_one_spec h single_path :
  wf h ->
  wf (create_one h single_path).1 /\
  extends h (create_one h single_path).1 /\
  present (create_one h single_path).1 single_path /\
  (create_one h single_path).2 = (create_record single_path).2.
Proof.
  intros Hwf. unfold create_one, create_record, present.
  destruct (_is_valid_path single_path) eqn:Hv; simpl;
    [|split_and!; by auto using extends_refl].
  destruct (mkdir_p h root (segments single_path)) as [h' c'] eqn:Hm.
  destruct (mkdir_p_spec _ _ _ _ _ Hwf (wf_root_lt _ Hwf)
              (_is_valid_path_parts _ Hv) Hm) as (?&?&?&Hw).
  simpl. split_and!; try done.
Qed.

Lemma present_extends h h' path : extends h h' -> present h path -> present h' path.
Proof.
  intros Hext Hp Hv. destruct (Hp Hv) as [c Hc].
  exists c. by eapply walk_extends.
Qed.

Lemma create_one_present h single_path :
  present h single_path -> create_one h single_path = (h, (create_record single_path).2).
Proof.
  intros Hp. unfold create_one, create_record. unfold present in Hp.
  destruct (_is_valid_path single_path); simpl; [|done].
  destruct Hp as [c Hc]; [done|]. by rewrite (mkdir_p_walk _ _ _ _ Hc).
Qed.

Lemma create_loop_spec paths : forall h,
  wf h ->
  wf (create_loop h paths).1 /\
  extends h (create_loop h paths).1 /\
  Forall (present (create_loop h paths).1) paths /\
  (create_loop h paths).2 = create_record <$> paths.
Proof.
  induction paths as [|p paths IH]; intros h Hwf; simpl.
  { split_and!; auto using extends_refl. }
  destruct (create_one_spec h p Hwf) as (Hwf1 & Hext1 & Hp1 & Ho).
  destruct (create_one h p) as [h1 o]. simpl in *.
  destruct (IH h1 Hwf1) as (Hwf2 & Hext2 & Hall & Hos).
  destruct (create_loop h1 paths) as [h2 os]. simpl in *.
  split_and!; [done|by eapply extends_trans| |].
  - apply Forall_cons. split; [by eapply present_extends|done].
  - unfold create_record at 1. simpl. by rewrite Ho, Hos.
Qed.

Lemma create_loop_present paths : forall h,
  Forall (present h) paths -> create_loop h paths = (h, create_record <$> paths).
Proof.
  induction paths as [|p paths IH]; intros h Hall; simpl; [done|].
  apply Forall_cons in Hall as [Hp Hall].
  rewrite (create_one_present _ _ Hp), (IH _ Hall). by unfold create_record at 2.
Qed.

(** [create] run again on its own result changes nothing and emits the
    same records. *)
Lemma create_idempotent h path :
  wf h -> create (create h path).1 path = create h path.
Proof.
  intros Hwf. unfold create.
  destruct (create_loop_spec (_expand_path_list path) h Hwf) as (_&_&Hall&Hos).
  rewrite (create_loop_present _ _ Hall).
  destruct (create_loop h (_expand_path_list path)) as [h' os]. simpl in *.
  by rewrite Hos.
Qed.

(** ** delete *)

Lemma lower_char_y c : PyStr.lower_char c = "y"%char -> c = "y"%char \/ c = "Y"%char.
Proof. destruct c as [[] [] [] [] [] [] [] []]; vm_compute; intros [=]; auto. Qed.
Lemma lower_char_e c : PyStr.lower_char c = "e"%char -> c = "e"%char \/ c = "E"%char.
Proof. destruct c as [[] [] [] [] [] [] [] []]; vm_compute; intros [=]; auto. Qed.
Lemma lower_char_s c : PyStr.lower_char c = "s"%char -> c = "s"%char \/ c = "S"%char.
Proof. destruct c as [[] [] [] [] [] [] [] []]; vm_compute; intros [=]; auto. Qed.

Lemma lower_y s : PyStr.lower s = "y" -> s = "y" \/ s = "Y".
Proof.
  destruct s as [|a [|b s]]; try done. simpl. intros [= Ha].
  apply lower_char_y in Ha as [->| ->]; auto.
Qed.

Lemma lower_yes s :
  PyStr.lower s = "yes" ->
  s ∈ ["yes"; "yeS"; "yEs"; "yES"; "Yes"; "YeS"; "YEs"; "YES"].
Proof.
  destruct s as [|a [|b [|c [|d s]]]]; try done. simpl. intros [= Ha Hb Hc].
  apply lower_char_y in Ha as [->| ->]; apply lower_char_e in Hb as [->| ->];
    apply lower_char_s in Hc as [->| ->];
    repeat first [apply list_elem_of_here|apply list_elem_of_further].
Qed.

Lemma _confirm_deletion_replies reply :
  _confirm_deletion reply = true <->
  PyStr.strip reply ∈
    ["yes"; "yeS"; "yEs"; "yES"; "Yes"; "YeS"; "YEs"; "YES"; "y"; "Y"].
Proof.
  unfold _confirm_deletion. cbv zeta. split.
  - intros [H|H]%orb_prop; apply String.eqb_eq in H.
    + apply lower_yes in H.
      change (PyStr.strip reply ∈
        ["yes"; "yeS"; "yEs"; "yES"; "Yes"; "YeS"; "YEs"; "YES"] ++ ["y"; "Y"]).
      apply elem_of_app. by left.
    + apply lower_y in H as [->| ->];
        repeat first [apply list_elem_of_here|apply list_elem_of_further].
  - intros H.
    repeat (apply elem_of_cons in H as [->|H]; [done|]). by apply elem_of_nil in H.
Qed.

Lemma delete_ordinary h path reply :
  in_strings path root_forms = false ->
  delete h path reply =
    let '(parent, node, target_name) := _get_node_and_parent h path in
    match parent with
    | None => (h, NotFound, None)
    | Some parent =>
        match dict_get target_name (kids h parent) with
        | None => (h, NotFound, None)
        | Some target_node =>
            let h' := set_kids h parent (dict_del target_name (kids h parent)) in
            if dict_nonempty (kids h target_node) then
              let target := "directory '" +:+ path +:+ "' and its subdirectories" in
              if negb (_confirm_deletion reply) then (h, Cancelled, Some target)
              else (h', DeletedSubtree, Some target)
            else (h', DeletedSubtree, None)
        end
    end.
Proof. intros H. unfold delete. by rewrite H. Qed.

(** For a path that is none of the forms of [delete]'s special case:
    if it resolves to a node without children, [delete] asks nothing
    and succeeds whatever the reply would have been, and its parent
    loses that entry and no other; and whenever [delete] does ask, the
    target is there and has a child. *)
Lemma delete_leaf_no_prompt h P reply :
  in_strings P root_forms = false ->
  (forall parent node target_name target_node,
     _get_node_and_parent h P = (Some parent, node, target_name) ->
     dict_get target_name (kids h parent) = Some target_node ->
     kids h target_node = [] ->
     exists h',
       delete h P reply = (h', DeletedSubtree, None) /\
       dict_get target_name (kids h' parent) = None /\
       (forall k, k <> target_name ->
                  dict_get k (kids h' parent) = dict_get k (kids h parent)) /\
       (forall i, i <> parent -> h' !! i = h !! i)) /\
  (forall target, (delete h P reply).2 = Some target ->
     exists parent node target_name target_node,
       _get_node_and_parent h P = (Some parent, node, target_name) /\
       dict_get target_name (kids h parent) = Some target_node /\
       kids h target_node <> []).
Proof.
  intros Hord. rewrite (delete_ordinary _ _ _ Hord). split.
  - intros parent nd nm target Hg Hget Hleaf. rewrite Hg, Hget, Hleaf. simpl.
    eexists. split; [done|].
    pose proof (dict_get_kids_lt _ _ _ _ Hget) as Hlt.
    split_and!.
    + rewrite kids_set_kids_eq by done. apply dict_get_del_eq.
    + intros k Hk. rewrite kids_set_kids_eq by done. by apply dict_get_del_ne.
    + intros i Hi. unfold set_kids. by rewrite list_lookup_insert_ne.
  - intros t Ht.
    destruct (_get_node_and_parent h P) as [[[parent|] nd] nm]; [|done].
    destruct (dict_get nm (kids h parent)) as [target|] eqn:Hget; [|done].
    exists parent, nd, nm, target. split_and!; try done.
    intros Hleaf. by rewrite Hleaf in Ht.
Qed.

Example delete_leaf_no_prompt_ab :
  exists h',
    delete (run [Create "a/b"]) "a/b" "no" = (h', DeletedSubtree, None) /\
    dict_get "b" (kids h' 1) = None.
Proof.
  destruct (delete_leaf_no_prompt (run [Create "a/b"]) "a/b" "no")
    as [Hleaf _]; [reflexivity|].
  destruct (Hleaf 1 (Some 2) "b" 2) as (h' & Hd & Hgone & _); [reflexivity..|].
  by exists h'.
Qed.

(** The forms [root] and [root/] shadow a directory of that name: the
    path resolves to a leaf, and [delete] takes it for the root. *)
Remark delete_leaf_named_root_asks :
  let h := run [Create "root"] in
  segments "root" = ["root"] /\
  _get_node_and_parent h "root" = (Some root, Some 1, "root") /\
  kids h 1 = [] /\
  delete h "root" "no" = (h, Cancelled, Some "root directory and all its contents").
Proof. by split_and!. Qed.

(** ** No sharing: every operation keeps each object under one parent *)

Lemma dict_get_set_Some {V} k k' (v v' : V) d :
  dict_get k' (dict_set k v d) = Some v' ->
  (k' = k /\ v' = v) \/ (k' <> k /\ dict_get k' d = Some v').
Proof.
  intros H. destruct (decide (k = k')) as [->|Hne].
  - rewrite dict_get_set_eq in H. left. by simplify_eq.
  - rewrite dict_get_set_ne in H by done. right. by split.
Qed.

Lemma dict_get_del_Some {V} k k' (v' : V) d :
  dict_get k' (dict_del k d) = Some v' -> k' <> k /\ dict_get k' d = Some v'.
Proof.
  intros H. destruct (decide (k = k')) as [->|Hne].
  - by rewrite dict_get_del_eq in H.
  - rewrite dict_get_del_ne in H by done. by split.
Qed.

(** The entries of a store after an assignment to [i]'s children. *)
Lemma dict_get_set_kids h i d x k j :
  dict_get k (kids (set_kids h i d) x) = Some j ->
  (x = i /\ dict_get k d = Some j) \/ (x <> i /\ dict_get k (kids h x) = Some j).
Proof.
  intros H. destruct (decide (x = i)) as [->|Hne].
  - left. split; [done|].
    pose proof (dict_get_kids_lt _ _ _ _ H) as Hlt.
    rewrite length_set_kids in Hlt. by rewrite kids_set_kids_eq in H.
  - right. split; [done|]. by rewrite kids_set_kids_ne in H.
Qed.

Lemma dict_get_add_child_Some h c part x k j :
  c < length h ->
  dict_get k (kids (add_child h c part) x) = Some j ->
  (x = c /\ k = part /\ j = length h) \/ dict_get k (kids h x) = Some j.
Proof.
  intros Hc H. unfold add_child, alloc in H. cbv beta iota zeta in H.
  apply dict_get_set_kids in H as [[-> H]|[Hne H]].
  - rewrite kids_app_l in H by done.
    apply dict_get_set_Some in H as [[-> ->]|[_ H]]; auto.
  - pose proof (dict_get_kids_lt _ _ _ _ H) as Hlt.
    rewrite length_app in Hlt. simpl in Hlt.
    destruct (decide (x = length h)) as [->|Hx].
    + by rewrite kids_app_fresh in H.
    + rewrite kids_app_l in H by lia. by right.
Qed.

Lemma tree_store_add_child h c part :
  tree_store h -> c < length h -> dict_get part (kids h c) = None ->
  valid_part part = true -> tree_store (add_child h c part).
Proof.
  intros (Hwf & Hup & Hro) Hc Hget Hv. split; [by apply wf_add_child|]. split.
  - intros i k j i' k' H1 H2.
    destruct (dict_get_add_child_Some _ _ _ _ _ _ Hc H1) as [(Hi&Hk&Hj)|H1'];
      destruct (dict_get_add_child_Some _ _ _ _ _ _ Hc H2) as [(Hi'&Hk'&Hj')|H2'].
    + by subst.
    + apply (wf_kids_lt _ _ _ _ Hwf) in H2'. lia.
    + apply (wf_kids_lt _ _ _ _ Hwf) in H1'. lia.
    + by eapply Hup.
  - intros i k H.
    destruct (dict_get_add_child_Some _ _ _ _ _ _ Hc H) as [(_&_&Hroot)|H'];
      [|by eapply Hro].
    unfold root in Hroot. lia.
Qed.

Lemma mkdir_p_tree_store parts : forall h c h' c',
  tree_store h -> c < length h -> Forall (fun part => valid_part part = true) parts ->
  mkdir_p h c parts = (h', c') -> tree_store h'.
Proof.
  induction parts as [|part rest IH]; intros h c h' c' Ht Hc Hv Hm.
  { simpl in Hm. by simplify_eq. }
  apply Forall_cons in Hv as [Hv Hvs].
  destruct (dict_get part (kids h c)) as [child|] eqn:E.
  - simpl in Hm. rewrite E in Hm.
    eapply IH; [done| |done|exact Hm]. eapply wf_kids_lt; [apply Ht|done].
  - rewrite mkdir_p_missing in Hm by done.
    eapply IH; [|  |done|exact Hm]; [by apply tree_store_add_child|].
    rewrite length_add_child. lia.
Qed.

(** A store that has lost entries still shares nothing. *)
Lemma tree_store_fewer h h' :
  wf h' -> extends h' h -> tree_store h -> tree_store h'.
Proof.
  intros Hwf' Hext (_ & Hup & Hro). split; [done|]. split.
  - intros i k j i' k' H1 H2. eapply Hup; by apply Hext.
  - intros i k H. eapply Hro. by apply Hext.
Qed.

Lemma extends_del_child h i k : extends (set_kids h i (dict_del k (kids h i))) h.
Proof.
  intros x k' v H. apply dict_get_set_kids in H as [[-> H]|[_ H]]; [|done].
  by apply dict_get_del_Some in H as [_ H].
Qed.

Lemma extends_clear h i : extends (set_kids h i []) h.
Proof. intros x k' v H. by apply dict_get_set_kids in H as [[-> H]|[_ H]]. Qed.

Lemma create_one_tree_store h single_path :
  tree_store h -> tree_store (create_one h single_path).1.
Proof.
  intros Ht. unfold create_one.
  destruct (_is_valid_path single_path) eqn:Hv; simpl; [|done].
  destruct (mkdir_p h root (segments single_path)) as [h' c'] eqn:Hm.
  eapply mkdir_p_tree_store; [done|by apply wf_root_lt, Ht| |exact Hm].
  by apply _is_valid_path_parts.
Qed.

Lemma create_tree_store h path : tree_store h -> tree_store (create h path).1.
Proof.
  unfold create. generalize (_expand_path_list path). intros paths. revert h.
  induction paths as [|p paths IH]; intros h Ht; simpl; [done|].
  pose proof (create_one_tree_store h p Ht) as H1.
  destruct (create_one h p) as [h1 o]. simpl in H1.
  pose proof (IH h1 H1) as H2.
  by destruct (create_loop h1 paths) as [h2 os].
Qed.

Lemma delete_tree_store h path reply :
  tree_store h -> tree_store (delete h path reply).1.1.
Proof.
  intros Ht. pose proof (delete_wf h path reply (proj1 Ht)) as Hwf'.
  revert Hwf'. unfold delete.
  destruct (in_strings path root_forms).
  { destruct (negb (_confirm_deletion reply)); simpl; [done|].
    intros Hwf'. eapply tree_store_fewer; [done|apply extends_clear|done]. }
  destruct (_get_node_and_parent h path) as [[[parent|] nd] nm]; [|done].
  destruct (dict_get nm (kids h parent)) as [target|]; [|done].
  destruct (dict_nonempty (kids h target)); [destruct (negb _)|]; simpl;
    try done; intros Hwf';
    (eapply tree_store_fewer; [done|apply extends_del_child|done]).
Qed.

Lemma move_tree_store h source destination :
  tree_store h -> tree_store (move h source destination).1.
Proof.
  intros Ht. pose proof (move_wf h source destination (proj1 Ht)) as Hwf'.
  revert Hwf'.
  destruct (_is_valid_path source) eqn:Hs; [|by rewrite move_invalid by auto].
  destruct (_is_valid_path destination) eqn:Hd; [|by rewrite move_invalid by auto].
  destruct (decide (source = destination)) as [->|Hne];
    [by rewrite move_identical|].
  destruct (resolves h source) eqn:Hr; [|by rewrite move_not_found].
  destruct (move_found h _ _ Hs Hd Hne Hr) as (sp&nd&nm&m&_&Hget&->).
  destruct (_is_subdirectory source destination); [done|].
  destruct (mkdir_p h root (segments destination)) as [h1 current] eqn:Hmk.
  pose proof Ht as (Hwf & _).
  destruct (mkdir_p_spec _ _ _ _ _ Hwf (wf_root_lt _ Hwf)
              (_is_valid_path_parts _ Hd) Hmk) as (Hwf1 & Hcur & Hext & _).
  pose proof (mkdir_p_tree_store _ _ _ _ _ Ht (wf_root_lt _ Hwf)
                (_is_valid_path_parts _ Hd) Hmk) as (_ & Hup & Hro).
  destruct (dict_mem nm (kids h1 current)) eqn:Hmem; [done|]. simpl.
  apply dict_mem_false in Hmem. apply Hext in Hget. intros Hwf'.
  set (h2 := set_kids h1 current (dict_set nm m (kids h1 current))).
  assert (Hedge : forall x k j,
    dict_get k (kids (set_kids h2 sp (dict_del nm (kids h2 sp))) x) = Some j ->
    (x = current /\ k = nm /\ j = m) \/
    (dict_get k (kids h1 x) = Some j /\ (x = sp -> k <> nm))).
  { intros x k j H.
    apply dict_get_set_kids in H as [[-> H]|[Hx H]].
    - apply dict_get_del_Some in H as [Hk H].
      apply dict_get_set_kids in H as [[-> H]|[_ H]]; [|by right].
      apply dict_get_set_Some in H as [[-> _]|[_ H]]; [done|by right].
    - apply dict_get_set_kids in H as [[-> H]|[_ H]]; [|by right].
      apply dict_get_set_Some in H as [[-> ->]|[_ H]]; [by left|by right]. }
  split; [done|]. split.
  - intros i k j i' k' H1 H2.
    apply Hedge in H1 as [(Hi&Hk&Hj)|[H1 Hn1]];
      apply Hedge in H2 as [(Hi'&Hk'&Hj')|[H2 Hn2]].
    + by subst.
    + subst j. destruct (Hup _ _ _ _ _ H2 Hget) as [Hsp Hnm]. by destruct Hn2.
    + subst j. destruct (Hup _ _ _ _ _ H1 Hget) as [Hsp Hnm]. by destruct Hn1.
    + by eapply Hup.
  - intros i k H. apply Hedge in H as [(_&_&Hm)|[H _]]; [|by eapply Hro].
    rewrite <- Hm in Hget. by eapply Hro.
Qed.

Lemma tree_store_empty_tree : tree_store empty_tree.
Proof.
  split; [apply wf_empty_tree|]. split.
  - intros [|i] k j i' k' H; [done|]. by rewrite kids_dangling in H by (simpl; lia).
  - intros [|i] k H; [done|]. by rewrite kids_dangling in H by (simpl; lia).
Qed.

(** Every store reached from the empty tree is a tree store. *)
Lemma run_tree_store cs : tree_store (run cs).
Proof.
  unfold run. generalize tree_store_empty_tree. generalize empty_tree.
  induction cs as [|c cs IH]; intros h Ht; simpl; [done|].
  apply IH. destruct c; simpl;
    [by apply create_tree_store|by apply delete_tree_store|by apply move_tree_store].
Qed.

(** ** A tree store is a tree below its root *)

Lemma walk_snoc h c parts part i :
  walk h c (parts ++ [part]) = Some i <->
  exists x, walk h c parts = Some x /\ dict_get part (kids h x) = Some i.
Proof.
  rewrite walk_app. destruct (walk h c parts) as [x|]; simpl.
  - destruct (dict_get part (kids h x)) as [y|] eqn:E.
    + split; [intros [= ->]; by exists x|]. intros (x' & [= <-] & H). congruence.
    + split; [done|]. intros (x' & [= <-] & H). congruence.
  - split; [done|]. by intros (x & ? & _).
Qed.

(** Two paths from the root to one object are the same path. *)
Lemma walk_inj h p : forall q i,
  tree_store h -> walk h root p = Some i -> walk h root q = Some i -> p = q.
Proof.
  induction p as [|part p IH] using rev_ind; intros q i Ht Hp Hq.
  - simpl in Hp. simplify_eq.
    destruct q as [|part' q _] using rev_ind; [done|].
    apply walk_snoc in Hq as (x & _ & Hx). by destruct Ht as (_ & _ & Hro); destruct (Hro _ _ Hx).
  - apply walk_snoc in Hp as (x & Hp & Hx).
    destruct q as [|part' q _] using rev_ind.
    + simpl in Hq. simplify_eq.
      by destruct Ht as (_ & _ & Hro); destruct (Hro _ _ Hx).
    + apply walk_snoc in Hq as (x' & Hq & Hx').
      destruct Ht as (Hwf & Hup & Hro).
      destruct (Hup _ _ _ _ _ Hx Hx') as [<- <-].
      f_equal. by eapply IH.
Qed.

Lemma visited_lookup h parts : forall c j x,
  visited h c parts !! j = Some x ->
  j <= length parts /\ walk h c (take j parts) = Some x.
Proof.
  induction parts as [|part rest IH]; intros c [|j] x H; simplify_eq/=.
  - by split.
  - split; [lia|done].
  - destruct (dict_get part (kids h c)) as [child|] eqn:E; [|done].
    destruct (IH _ _ _ H) as [Hj Hw]. split; [lia|done].
Qed.

Lemma visited_length h parts : forall c i,
  walk h c parts = Some i -> length (visited h c parts) = S (length parts).
Proof.
  induction parts as [|part rest IH]; intros c i H; simpl in *; [done|].
  destruct (dict_get part (kids h c)) as [child|]; [|done].
  by rewrite (IH _ _ H).
Qed.

Lemma visited_lt h parts : forall c,
  wf h -> c < length h -> Forall (fun x => x < length h) (visited h c parts).
Proof.
  induction parts as [|part rest IH]; intros c Hwf Hc; simpl.
  { by apply Forall_singleton. }
  apply Forall_cons. split; [done|].
  destruct (dict_get part (kids h c)) as [child|] eqn:E; [|apply Forall_nil_2].
  apply IH; [done|]. by eapply wf_kids_lt.
Qed.

(** A path from the root passes each object once, so it is shorter
    than the store is large. *)
Lemma walk_length_lt h parts i :
  tree_store h -> walk h root parts = Some i -> length parts < length h.
Proof.
  intros Ht Hw. pose proof Ht as (Hwf & _).
  assert (NoDup (visited h root parts)) as Hnd.
  { apply NoDup_alt. intros j j' x Hj Hj'.
    apply visited_lookup in Hj as [Hlj Hj]. apply visited_lookup in Hj' as [Hlj' Hj'].
    pose proof (walk_inj _ _ _ _ Ht Hj Hj') as Heq.
    apply (f_equal length) in Heq. rewrite !length_take in Heq. lia. }
  assert (visited h root parts ⊆+ seq 0 (length h)) as Hsub.
  { apply NoDup_submseteq; [done|]. intros x Hx. apply elem_of_seq.
    pose proof (visited_lt h parts root Hwf (wf_root_lt _ Hwf)) as Hall.
    rewrite Forall_forall in Hall. specialize (Hall x Hx). lia. }
  apply submseteq_length in Hsub.
  rewrite (visited_length _ _ _ _ Hw), length_seq in Hsub. lia.
Qed.

Lemma dict_get_elem_NoDup {V} k (v : V) d :
  NoDup (dict_keys d) -> (k, v) ∈ d -> dict_get k d = Some v.
Proof.
  unfold dict_keys. induction d as [|[k' v'] d IH]; simpl; [by intros _ ?%elem_of_nil|].
  rewrite NoDup_cons. intros [Hnot Hnd] [[= -> ->]|Hin]%elem_of_cons.
  - by rewrite String.eqb_refl.
  - destruct (String.eqb k' k) eqn:E; [|auto].
    apply String.eqb_eq in E as ->. destruct Hnot.
    apply list_elem_of_fmap. by exists (k, v).
Qed.

(** Where every walk from [c] has at most [n] steps, the chains of
    children below [c] have at most [n] links. *)
Lemma height_le_walks h n : forall c,
  wf h -> (forall parts i, walk h c parts = Some i -> length parts <= n) ->
  height_le n h c = true.
Proof.
  induction n as [|n IH]; intros c Hwf Hb; simpl.
  - destruct (kids h c) as [|[k v] d] eqn:E; [done|].
    specialize (Hb [k] v). simpl in Hb. rewrite E in Hb. simpl in Hb.
    rewrite String.eqb_refl in Hb. specialize (Hb eq_refl). simpl in Hb. lia.
  - apply forallb_forall. intros [k v] Hin%list_elem_of_In. simpl.
    apply IH; [done|]. intros parts i Hw.
    specialize (Hb (k :: parts) i). simpl in Hb.
    rewrite (dict_get_elem_NoDup _ _ _ (wf_kids_NoDup h c Hwf) Hin) in Hb.
    specialize (Hb Hw). lia.
Qed.

Lemma tree_store_height h : tree_store h -> height_le (length h) h root = true.
Proof.
  intros Ht. apply height_le_walks; [apply Ht|].
  intros parts i Hw. pose proof (walk_length_lt _ _ _ Ht Hw). lia.
Qed.

(** ** list *)

Lemma sorted_nil : sorted [] = [].
Proof. reflexivity. Qed.

Lemma sorted_Permutation l : sorted l ≡ₚ l.
Proof. apply merge_sort_Permutation. Qed.

Lemma sorted_StronglySorted l : StronglySorted String.le (sorted l).
Proof. apply (StronglySorted_merge_sort String.le). Qed.

Lemma StronglySorted_name_lt l :
  StronglySorted String.le l -> NoDup l -> StronglySorted name_lt l.
Proof.
  induction 1 as [|x l Hs IH Hall]; intros Hnd; [constructor|].
  apply NoDup_cons in Hnd as [Hx Hnd]. constructor; [auto|].
  rewrite Forall_forall in Hall. apply Forall_forall. intros y Hy.
  split; [auto|]. by intros ->.
Qed.

(** The order of enumeration at a node: strictly ascending, and the
    same whatever order the keys were inserted in. *)
Lemma sorted_keys_strict (keys : list string) :
  NoDup keys -> StronglySorted name_lt (sorted keys).
Proof.
  intros Hnd. apply StronglySorted_name_lt; [apply sorted_StronglySorted|].
  by rewrite sorted_Permutation.
Qed.

Lemma sorted_insertion_order (keys1 keys2 : list string) :
  keys1 ≡ₚ keys2 -> sorted keys1 = sorted keys2.
Proof.
  intros Hp. apply (StronglySorted_unique String.le);
    [apply sorted_StronglySorted..|].
  by rewrite !sorted_Permutation.
Qed.

Lemma node_at_name h j k : name <$> h !! j = Some k -> name (node_at h j) = k.
Proof. unfold node_at. destruct (h !! j); simpl; [by intros [= ->]|done]. Qed.

Lemma later_siblings_above_app_deeper d nm sub more :
  Forall (fun e => d < e_indent e) sub ->
  later_siblings_above d nm more -> later_siblings_above d nm (sub ++ more).
Proof.
  induction 1 as [|e sub He Hsub IH]; simpl; [done|]. intros Hm.
  destruct (Nat.ltb_spec (e_indent e) d); [done|]. split; [lia|auto].
Qed.

Lemma later_siblings_above_app_stop d nm l more :
  later_siblings_above d nm l ->
  match more with [] => True | e :: _ => e_indent e < d end ->
  later_siblings_above d nm (l ++ more).
Proof.
  induction l as [|e l IH]; simpl.
  - intros _ Hm. destruct more as [|e more]; simpl; [done|].
    by apply Nat.ltb_lt in Hm as ->.
  - destruct (e_indent e <? d); [done|]. intros [? ?] ?. auto.
Qed.

Lemma sorted_levels_app d sub more :
  Forall (fun e => d < e_indent e) sub ->
  sorted_levels sub -> sorted_levels more ->
  match more with [] => True | e :: _ => e_indent e <= d end ->
  sorted_levels (sub ++ more).
Proof.
  induction 1 as [|e sub He Hsub IH]; simpl; [done|]. intros [Hl Hs] Hm Hh.
  split; [|auto]. apply later_siblings_above_app_stop; [done|].
  destruct more; [done|lia].
Qed.

Lemma later_siblings_above_sibling d nm mid e2 l2 :
  later_siblings_above d nm (mid ++ e2 :: l2) ->
  Forall (fun e => d <= e_indent e) mid -> e_indent e2 = d ->
  name_lt nm (e_name e2).
Proof.
  intros Hl Hmid He2. induction Hmid as [|e mid He Hmid IH]; simpl in Hl.
  - destruct (Nat.ltb_spec (e_indent e2) d); [lia|]. by apply Hl.
  - destruct (Nat.ltb_spec (e_indent e) d); [lia|]. apply IH, Hl.
Qed.

Lemma sorted_levels_siblings out : sorted_levels out -> siblings_in_order out.
Proof.
  intros Hs l1 e1 mid e2 l2 -> He Hmid.
  induction l1 as [|a l1 IH]; simpl in Hs; destruct Hs as [Hl Hs]; [|auto].
  by eapply later_siblings_above_sibling.
Qed.

Section list_facts.
Variable h : heap.
Hypothesis Hwf : wf h.

Lemma list_loop_spec n node d prefix len names :
  (forall child d' prefix', height_le n h child = true ->
                            exists out, list_returns h n child d' prefix' out) ->
  Forall (fun nm => exists child,
              dict_get nm (kids h node) = Some child /\ height_le n h child = true)
         names ->
  StronglySorted name_lt names ->
  forall i, exists out,
    (forall fuel, n < fuel ->
       list_loop (list_ fuel) h node d prefix len i names = Some (h, out)) /\
    Forall (fun e => d <= e_indent e) out /\
    sorted_levels out /\
    match out with [] => True | e :: _ => e_indent e <= d end /\
    (forall nm0, Forall (name_lt nm0) names -> later_siblings_above d nm0 out).
Proof.
  intros Hrec Hnames Hsorted.
  induction Hnames as [|nm names (child & Hget & Hh) Hnames IH]; intros i.
  { exists []. by split_and!. }
  apply StronglySorted_inv in Hsorted as [Hsorted Hlt].
  destruct (Hrec child (S d) (prefix +:+ next_prefix (i =? len - 1)) Hh)
    as (sub & Hsub & Hsub_deep & Hsub_sorted).
  destruct (IH Hsorted (S i)) as (more & Hmore & Hmore_deep & Hmore_sorted & Hhead & Hsib).
  pose proof (node_at_name _ _ _ (proj2 (wf_kids _ _ _ _ Hwf Hget))) as Hname.
  assert (Forall (fun e => d < e_indent e) sub) as Hdeeper.
  { eapply Forall_impl; [exact Hsub_deep|]. simpl. lia. }
  eexists. split_and!.
  - intros fuel Hfuel. simpl. rewrite Hget, (Hsub fuel Hfuel), (Hmore fuel Hfuel).
    reflexivity.
  - apply Forall_cons. split; [simpl; lia|]. apply Forall_app. split; [|done].
    eapply Forall_impl; [exact Hsub_deep|]. simpl. lia.
  - simpl. rewrite Hname. split.
    + apply later_siblings_above_app_deeper; [done|]. by apply Hsib.
    + by eapply sorted_levels_app.
  - simpl. lia.
  - intros nm0 [Hnm0 Hrest]%Forall_cons. simpl. rewrite Nat.ltb_irrefl, Hname.
    split; [done|]. apply later_siblings_above_app_deeper; [done|]. by apply Hsib.
Qed.

Lemma list_spec n : forall node d prefix,
  height_le n h node = true -> exists out, list_returns h n node d prefix out.
Proof.
  induction n as [|n IH]; intros node d prefix Hh; simpl in Hh.
  - exists []. split_and!; [|apply Forall_nil_2|done].
    intros [|fuel] Hfuel; [lia|].
    destruct (kids h node) eqn:E; [|done]. cbn [list_]. by rewrite E.
  - set (names := sorted (dict_keys (kids h node))).
    destruct (list_loop_spec n node d prefix (length names) names IH)
      with (i := 0) as (out & Hout & Hdeep & Hsorted & _).
    + apply Forall_forall. intros nm Hnm. unfold names in Hnm.
      rewrite sorted_Permutation in Hnm.
      destruct (dict_get nm (kids h node)) as [child|] eqn:Hget;
        [|by apply dict_get_None_keys in Hget].
      exists child. split; [done|].
      rewrite forallb_forall in Hh.
      apply (Hh (nm, child)), list_elem_of_In. by apply dict_get_Some_elem.
    + by apply sorted_keys_strict, wf_kids_NoDup.
    + exists out. split_and!; try done.
      intros [|fuel] Hfuel; [lia|]. simpl. apply Hout. lia.
Qed.
End list_facts.

(** *** The lines of a listing, path by path *)

Lemma name_lt_irrefl a : ~ name_lt a a.
Proof. by intros [_ ?]. Qed.

Lemma name_lt_not_le a b : name_lt a b -> ~ String.le b a.
Proof. intros [Hab Hne] Hba. apply Hne. by apply (anti_symm String.le). Qed.

Lemma path_lt_below k p : p <> [] -> path_lt [k] (k :: p).
Proof. destruct p; [done|]. intros _. simpl. right. by split. Qed.

Lemma StronglySorted_path_lt_cons k paths :
  StronglySorted path_lt paths -> StronglySorted path_lt (cons k <$> paths).
Proof.
  induction 1 as [|p paths Hs IH Hall]; simpl; constructor; [done|].
  apply Forall_fmap. eapply Forall_impl; [exact Hall|].
  intros q Hq. simpl. right. by split.
Qed.

Lemma line_at_walk h : forall p node d prefix e,
  line_at h node d prefix p = Some e -> p <> [] /\ is_Some (walk h node p).
Proof.
  induction p as [|k rest IH]; intros node d prefix e H; [done|].
  split; [done|]. simpl in *.
  destruct (dict_get k (kids h node)) as [child|]; [|done].
  destruct rest as [|k2 rest]; [by eexists|].
  by apply IH in H as [_ ?].
Qed.

Lemma line_at_line_of h : forall p node d prefix e,
  line_at h node d prefix p = Some e ->
  e_indent e + 1 = d + length p /\ last p = Some (e_name e).
Proof.
  induction p as [|k rest IH]; intros node d prefix e H; [done|].
  simpl in H.
  destruct (dict_get k (kids h node)) as [child|]; [|done].
  destruct rest as [|k2 rest].
  - simplify_eq. simpl. split; [lia|done].
  - apply IH in H as [Hd Hl]. split; [simpl in *; lia|].
    by rewrite last_cons_cons.
Qed.

Section list_lines_facts.
Variable h : heap.
Hypothesis Hwf : wf h.

Lemma is_greatest_last node nm names i len :
  is_Some (dict_get nm (kids h node)) ->
  Forall (fun nm => is_Some (dict_get nm (kids h node))) names ->
  Forall (name_lt nm) names ->
  (forall k, is_Some (dict_get k (kids h node)) ->
             k ∈ nm :: names \/ Forall (name_lt k) (nm :: names)) ->
  i + length (nm :: names) = len ->
  (i =? len - 1) = is_greatest nm (kids h node).
Proof.
  intros Hnm Hkeys Hlt Hcover Hlen. simpl in Hlen.
  destruct names as [|nm' names].
  - replace (i =? len - 1) with true by (symmetry; apply Nat.eqb_eq; simpl in Hlen; lia).
    symmetry. unfold is_greatest. apply forallb_forall. intros k Hk. apply bool_decide_eq_true.
    apply list_elem_of_In in Hk.
    destruct (Hcover k) as [Hin|Hall].
    + destruct (dict_get k (kids h node)) eqn:E; [done|].
      by apply dict_get_None_keys in E.
    + apply list_elem_of_singleton in Hin as ->. done.
    + apply Forall_cons in Hall as [[? _] _]. done.
  - replace (i =? len - 1) with false by (symmetry; apply Nat.eqb_neq; simpl in Hlen; lia).
    symmetry. apply not_true_is_false. intros Hg.
    unfold is_greatest in Hg. rewrite forallb_forall in Hg.
    apply Forall_cons in Hlt as [Hlt _]. apply Forall_cons in Hkeys as [[c Hc] _].
    apply (name_lt_not_le _ _ Hlt).
    eapply bool_decide_eq_true, Hg, list_elem_of_In.
    apply dec_stable. intros Hnot. apply dict_get_None_keys in Hnot. congruence.
Qed.

Lemma list_loop_lines n node d prefix len names :
  (forall child d' prefix', height_le n h child = true ->
     exists out paths, list_lines h n child d' prefix' out paths) ->
  Forall (fun nm => exists child,
              dict_get nm (kids h node) = Some child /\ height_le n h child = true)
         names ->
  StronglySorted name_lt names ->
  (forall k, is_Some (dict_get k (kids h node)) ->
             k ∈ names \/ Forall (name_lt k) names) ->
  forall i, i + length names = len ->
  exists out paths,
    (forall fuel, n < fuel ->
       list_loop (list_ fuel) h node d prefix len i names = Some (h, out)) /\
    Forall2 (fun p e => line_at h node d prefix p = Some e) paths out /\
    (forall p, p ∈ paths <->
               exists nm rest, p = nm :: rest /\ nm ∈ names /\ is_Some (walk h node p)) /\
    StronglySorted path_lt paths.
Proof.
  intros Hrec Hnames Hsorted.
  induction Hnames as [|nm names (child & Hget & Hh) Hnames IH]; intros Hcover i Hlen.
  { exists [], []. split_and!; [done|constructor| |constructor].
    intros p. split; [by intros ?%elem_of_nil|].
    by intros (? & ? & _ & ?%elem_of_nil & _). }
  apply StronglySorted_inv in Hsorted as [Hsorted Hlt].
  assert (Hlast : (i =? len - 1) = is_greatest nm (kids h node)).
  { apply (is_greatest_last node nm names i len); try done.
    eapply Forall_impl; [exact Hnames|]. by intros ? (? & -> & _). }
  destruct (Hrec child (S d) (prefix +:+ next_prefix (i =? len - 1)) Hh)
    as (sub & subpaths & Hsub & Hsub2 & Hsub_in & Hsub_sorted).
  destruct (IH Hsorted) with (i := S i)
    as (more & morepaths & Hmore & Hmore2 & Hmore_in & Hmore_sorted).
  { intros k Hk. destruct (Hcover k Hk) as [[->|Hin]%elem_of_cons|Hall]; [by right|by left|].
    right. by apply Forall_cons in Hall as [_ ?]. }
  { simpl in Hlen. lia. }
  pose proof (node_at_name _ _ _ (proj2 (wf_kids _ _ _ _ Hwf Hget))) as Hname.
  exists (mkEntry d prefix (i =? len - 1) nm :: sub ++ more),
         ([nm] :: (cons nm <$> subpaths) ++ morepaths).
  split_and!.
  - intros fuel Hfuel. simpl. rewrite Hget, (Hsub fuel Hfuel), (Hmore fuel Hfuel).
    by rewrite Hname.
  - constructor; [simpl; by rewrite Hget, Hlast|].
    apply Forall2_app; [|done]. apply Forall2_fmap_l.
    eapply Forall2_impl; [exact Hsub2|]. intros p e Hp. simpl. rewrite Hget.
    destruct p as [|k p]; [done|]. by rewrite <- Hlast.
  - intros p. rewrite elem_of_cons, elem_of_app, list_elem_of_fmap, Hmore_in. split.
    + intros [->|[(q & -> & Hq)|(nm' & rest & -> & Hin & Hw)]].
      * exists nm, []. split_and!; [done|apply list_elem_of_here|].
        simpl. rewrite Hget. by eexists.
      * exists nm, q. split_and!; [done|apply list_elem_of_here|].
        simpl. rewrite Hget. by apply Hsub_in in Hq as [_ ?].
      * exists nm', rest. split_and!; [done|by apply list_elem_of_further|done].
    + intros (nm' & rest & -> & Hin & Hw).
      destruct (decide (nm' = nm)) as [->|Hne].
      * destruct rest as [|k rest]; [by left|]. right. left.
        exists (k :: rest). split; [done|]. apply Hsub_in. split; [done|].
        simpl in Hw. by rewrite Hget in Hw.
      * right. right. exists nm', rest. split_and!; [done| |done].
        by apply elem_of_cons in Hin as [?|?].
  - constructor.
    + apply StronglySorted_app_2; [|by apply StronglySorted_path_lt_cons|done].
      intros p q (p' & -> & _)%list_elem_of_fmap (nm' & rest & -> & Hin & _)%Hmore_in.
      simpl. left. rewrite Forall_forall in Hlt. by apply Hlt.
    + apply Forall_app. split.
      * apply Forall_fmap, Forall_forall. intros q Hq. simpl.
        apply path_lt_below. by apply Hsub_in in Hq as [? _].
      * apply Forall_forall. intros q (nm' & rest & -> & Hin & _)%Hmore_in.
        simpl. left. rewrite Forall_forall in Hlt. by apply Hlt.
Qed.

Lemma list_lines_spec n : forall node d prefix,
  height_le n h node = true -> exists out paths, list_lines h n node d prefix out paths.
Proof.
  induction n as [|n IH]; intros node d prefix Hh; simpl in Hh.
  - exists [], []. split_and!; [|constructor| |constructor].
    + intros [|fuel] Hfuel; [lia|].
      destruct (kids h node) eqn:E; [|done]. cbn [list_]. by rewrite E.
    + intros p. split; [by intros ?%elem_of_nil|]. intros [Hne [x Hx]].
      destruct p as [|k p]; [done|]. simpl in Hx.
      by destruct (kids h node).
  - set (names := sorted (dict_keys (kids h node))).
    assert (Hkeys : forall k, k ∈ names <-> is_Some (dict_get k (kids h node))).
    { intros k. unfold names. rewrite sorted_Permutation. split.
      - intros Hk. destruct (dict_get k (kids h node)) eqn:E; [done|].
        by apply dict_get_None_keys in E.
      - intros [c Hc]. apply dec_stable. intros Hnot.
        apply dict_get_None_keys in Hnot. congruence. }
    destruct (list_loop_lines n node d prefix (length names) names IH)
      with (i := 0) as (out & paths & Hout & Hlines & Hin & Hsorted).
    + apply Forall_forall. intros nm [child Hget]%Hkeys.
      exists child. split; [done|].
      rewrite forallb_forall in Hh.
      apply (Hh (nm, child)), list_elem_of_In. by apply dict_get_Some_elem.
    + by apply sorted_keys_strict, wf_kids_NoDup.
    + intros k Hk. left. by apply Hkeys.
    + done.
    + exists out, paths. split_and!; [|done| |done].
      * intros [|fuel] Hfuel; [lia|]. simpl. apply Hout. lia.
      * intros p. rewrite Hin. split.
        -- intros (nm & rest & -> & _ & Hw). by split.
        -- intros [Hne Hw]. destruct p as [|k rest]; [done|].
           exists k, rest. split_and!; [done| |done]. apply Hkeys.
           destruct Hw as [x Hx]. simpl in Hx.
           destruct (dict_get k (kids h node)); [by eexists|done].
Qed.
End list_lines_facts.

Lemma line_at_is_last h : forall p node d prefix e,
  line_at h node d prefix p = Some e ->
  (e_is_last e = true <->
   forall k, is_Some (walk h node (removelast p ++ [k])) -> String.le k (e_name e)).
Proof.
  induction p as [|k rest IH]; intros node d prefix e H; [done|].
  simpl in H.
  destruct (dict_get k (kids h node)) as [child|] eqn:Hget; [|done].
  destruct rest as [|k2 rest].
  - simplify_eq. simpl. unfold is_greatest. rewrite forallb_forall. split.
    + intros Hall k' [x Hx].
      destruct (dict_get k' (kids h node)) as [c|] eqn:Hk'; [|done].
      eapply bool_decide_eq_true, Hall, list_elem_of_In.
      apply dec_stable. intros Hnot. apply dict_get_None_keys in Hnot. congruence.
    + intros Hall k' Hk'. apply bool_decide_eq_true, Hall.
      apply list_elem_of_In in Hk'.
      destruct (dict_get k' (kids h node)) eqn:E; [by eexists|].
      by apply dict_get_None_keys in E.
  - rewrite (IH _ _ _ _ H).
    change (removelast (k :: k2 :: rest)) with (k :: removelast (k2 :: rest)).
    simpl. by rewrite Hget.
Qed.

Section list_loop_facts.
Variable rec : heap -> nat -> nat -> string -> option (heap * list entry).
Hypothesis rec_unchanged :
  forall h c d p h' out, rec h c d p = Some (h', out) -> h' = h.

Lemma list_loop_unchanged names : forall h node d p n i h' out,
  list_loop rec h node d p n i names = Some (h', out) -> h' = h.
Proof.
  induction names as [|nm names IH]; intros h node d p n i h' out H; simpl in H.
  { by simplify_eq. }
  destruct (dict_get nm (kids h node)) as [child|]; [|done].
  destruct (rec h child (S d) _) as [[h1 sub]|] eqn:Hrec; [|done].
  apply rec_unchanged in Hrec as ->.
  destruct (list_loop rec h node d p n (S i) names) as [[h2 more]|] eqn:Hloop; [|done].
  apply IH in Hloop as ->. by simplify_eq.
Qed.
End list_loop_facts.

(** Whatever the store and the fuel, a listing that returns hands the
    store back as it was. *)
Lemma list_unchanged fuel : forall h node d p h' out,
  list_ fuel h node d p = Some (h', out) -> h' = h.
Proof.
  induction fuel as [|fuel IH]; intros h node d p h' out H; [done|].
  simpl in H. by eapply list_loop_unchanged.
Qed.

(** The listing of a tree store, from the root. *)
Lemma list_root_lines h :
  tree_store h -> exists out paths, list_lines h (length h) root 0 "" out paths.
Proof.
  intros Ht. apply list_lines_spec; [apply Ht|by apply tree_store_height].
Qed.

(** ** Strings and the expansion of a path list *)

Module PyStrFacts.
Import PyStr.

Lemma append_nil_l s : "" +:+ s = s.
Proof. reflexivity. Qed.

Lemma append_cons a s t : String a s +:+ t = String a (s +:+ t).
Proof. reflexivity. Qed.

Lemma append_assoc s t u : (s +:+ t) +:+ u = s +:+ t +:+ u.
Proof. induction s as [|a s IH]; [done|]. by rewrite !append_cons, IH. Qed.

Lemma length_append s t : String.length (s +:+ t) = String.length s + String.length t.
Proof. induction s as [|a s IH]; [done|]. rewrite append_cons. simpl. by rewrite IH. Qed.

Lemma contains_append c s t : contains c (s +:+ t) = contains c s || contains c t.
Proof.
  induction s as [|a s IH]; [done|]. rewrite append_cons. simpl.
  by destruct (Ascii.eqb a c).
Qed.

Lemma contains_cons_same c s : contains c (String c s) = true.
Proof. simpl. by rewrite Ascii.eqb_refl. Qed.

Lemma index_of_None c s : contains c s = false -> index_of c s = None.
Proof.
  induction s as [|a s IH]; simpl; [done|].
  destruct (Ascii.eqb a c); [done|]. intros H. by rewrite IH.
Qed.

Lemma index_of_Some c s : contains c s = true -> is_Some (index_of c s).
Proof.
  induction s as [|a s IH]; simpl; [done|].
  destruct (Ascii.eqb a c); [by eexists|]. intros H.
  destruct (IH H) as [i ->]. by eexists.
Qed.

(** The first occurrence lies past a prefix that has none. *)
Lemma index_of_append_past c u t :
  contains c u = false ->
  index_of c (u +:+ t) = (fun i => String.length u + i) <$> index_of c t.
Proof.
  induction u as [|a u IH].
  - intros _. rewrite append_nil_l. by destruct (index_of c t).
  - rewrite append_cons. simpl. destruct (Ascii.eqb a c); [done|].
    intros H. rewrite (IH H). by destruct (index_of c t).
Qed.

(** The first occurrence lies within a prefix that ends in one. *)
Lemma index_of_append_within c u t :
  exists j, index_of c (u +:+ String c t) = Some j /\ j <= String.length u.
Proof.
  induction u as [|a u (j & IH & Hj)].
  - rewrite append_nil_l. simpl. rewrite Ascii.eqb_refl. exists 0. by split.
  - rewrite append_cons. simpl. destruct (Ascii.eqb a c).
    + exists 0. split; [done|lia].
    + rewrite IH. exists (S j). split; [done|lia].
Qed.

Lemma rindex_of_None c s : contains c s = false -> rindex_of c s = None.
Proof.
  induction s as [|a s IH]; simpl; [done|].
  destruct (Ascii.eqb a c); [done|]. intros H. by rewrite IH.
Qed.

(** The last occurrence is the one that nothing follows. *)
Lemma rindex_of_append c b r :
  contains c r = false -> rindex_of c (b +:+ String c r) = Some (String.length b).
Proof.
  intros Hr. induction b as [|a b IH].
  - rewrite append_nil_l. simpl. by rewrite (rindex_of_None _ _ Hr), Ascii.eqb_refl.
  - rewrite append_cons. simpl. by rewrite IH.
Qed.

Lemma take_append b a r :
  take (String.length b + 1) (b +:+ String a r) = b +:+ String a "".
Proof.
  induction b as [|a' b IH]; [done|].
  rewrite !append_cons. simpl. by rewrite IH.
Qed.

Lemma drop_append b r : drop (String.length b) (b +:+ r) = r.
Proof. induction b as [|a b IH]; [by destruct r|]. by rewrite append_cons. Qed.

Lemma filter_strip_fmap (base : string) (names : list string) :
  (fun n => base +:+ strip n) <$> List.filter (fun n => nonempty (strip n)) names
  = (fun n => base +:+ n) <$> List.filter nonempty (strip <$> names).
Proof.
  induction names as [|n names IH]; [done|].
  rewrite fmap_cons. cbn [List.filter].
  destruct (nonempty (strip n)); [|done]. rewrite !fmap_cons. by f_equal.
Qed.
End PyStrFacts.

(** *** [strip] takes off the white space at both ends, and no more *)

Lemma is_space_bytes c :
  PyStr.is_space c = true ->
  (exists a, c = String a "") \/ (exists a b, c = String a (String b "")) \/
  (exists a b d, c = String a (String b (String d ""))).
Proof.
  unfold PyStr.is_space. intros H. apply existsb_exists in H as (x & Hin & Heq).
  apply String.eqb_eq in Heq as ->.
  vm_compute in Hin.
  repeat (destruct Hin as [<-|Hin]; [eauto 6|]). done.
Qed.

Lemma starts_white_cases a s :
  starts_white (String a s) ->
  PyStr.is_space (String a "") = true \/
  (exists b s2, s = String b s2 /\ PyStr.is_space (String a (String b "")) = true) \/
  (exists b d s3, s = String b (String d s3) /\
     PyStr.is_space (String a (String b (String d ""))) = true).
Proof.
  intros (c & t & Hc & Heq).
  destruct (is_space_bytes c Hc) as [(x & ->)|[(x & y & ->)|(x & y & z & ->)]];
    rewrite ?PyStrFacts.append_cons, ?PyStrFacts.append_nil_l in Heq; simplify_eq; eauto 8.
Qed.

Lemma lstrip_spec_le n : forall s, String.length s <= n ->
  exists l, s = l +:+ PyStr.lstrip s /\ all_white l /\ ~ starts_white (PyStr.lstrip s).
Proof.
  induction n as [|n IH]; intros s Hn.
  { destruct s; [|simpl in Hn; lia]. exists "". split_and!; [done|constructor|].
    intros (c & t & Hc & Heq). destruct c; [done|].
    by rewrite PyStrFacts.append_cons in Heq. }
  assert (Hstep : forall c t, PyStr.is_space c = true -> String.length t <= n ->
     exists l, c +:+ t = l +:+ PyStr.lstrip t /\ all_white l /\
               ~ starts_white (PyStr.lstrip t)).
  { intros c t Hc Ht. destruct (IH t Ht) as (l & Heq & Hw & Hns).
    exists (c +:+ l). split_and!; [|by constructor|done].
    rewrite PyStrFacts.append_assoc. by rewrite <- Heq. }
  assert (Hkeep : forall t, ~ starts_white t ->
     exists l, t = l +:+ t /\ all_white l /\ ~ starts_white t).
  { intros t Ht. exists "". split_and!; [done|constructor|done]. }
  destruct s as [|a s1]; [apply (IH ""); simpl; lia|]. simpl in Hn.
  cbn [PyStr.lstrip].
  destruct (PyStr.is_space (String a "")) eqn:H1.
  { apply (Hstep (String a "") s1 H1). lia. }
  destruct s1 as [|b s2].
  { apply Hkeep. intros Hs. apply starts_white_cases in Hs
      as [?|[(? & ? & ? & ?)|(? & ? & ? & ? & ?)]]; congruence. }
  destruct (PyStr.is_space (String a (String b ""))) eqn:H2.
  { apply (Hstep (String a (String b "")) s2 H2). simpl in Hn. lia. }
  destruct s2 as [|c s3].
  { apply Hkeep. intros Hs. apply starts_white_cases in Hs
      as [?|[(? & ? & ? & ?)|(? & ? & ? & ? & ?)]]; simplify_eq; congruence. }
  destruct (PyStr.is_space (String a (String b (String c "")))) eqn:H3.
  { apply (Hstep (String a (String b (String c ""))) s3 H3). simpl in Hn. lia. }
  apply Hkeep. intros Hs. apply starts_white_cases in Hs
      as [?|[(? & ? & ? & ?)|(? & ? & ? & ? & ?)]]; simplify_eq; congruence.
Qed.

Lemma lstrip_spec s :
  exists l, s = l +:+ PyStr.lstrip s /\ all_white l /\ ~ starts_white (PyStr.lstrip s).
Proof. by apply (lstrip_spec_le (String.length s)). Qed.

Lemma ends_white_cons a u :
  ends_white (String a u) -> PyStr.is_space (String a u) = true \/ ends_white u.
Proof.
  intros (t & c & Hc & Heq). destruct t as [|x t];
    rewrite ?PyStrFacts.append_cons, ?PyStrFacts.append_nil_l in Heq.
  - left. by rewrite Heq.
  - right. simplify_eq. by exists t, c.
Qed.

Lemma rstrip_spec s :
  exists r, s = PyStr.rstrip s +:+ r /\ all_white r /\ ~ ends_white (PyStr.rstrip s).
Proof.
  induction s as [|a s (r & Heq & Hw & Hne)].
  { exists "". split_and!; [done|constructor|].
    intros (t & c & Hc & Heq). destruct t; [|by rewrite PyStrFacts.append_cons in Heq].
    rewrite PyStrFacts.append_nil_l in Heq. by subst. }
  cbn [PyStr.rstrip]. cbv zeta.
  destruct (PyStr.is_space (String a (PyStr.rstrip s))) eqn:Hsp.
  - exists (String a (PyStr.rstrip s) +:+ r). split_and!.
    + rewrite PyStrFacts.append_nil_l, PyStrFacts.append_cons. by rewrite <- Heq.
    + by constructor.
    + intros (t & c & Hc & Hnil).
      destruct t; [|by rewrite PyStrFacts.append_cons in Hnil].
      rewrite PyStrFacts.append_nil_l in Hnil. by subst.
  - exists r. split_and!; [rewrite PyStrFacts.append_cons; by rewrite <- Heq|done|].
    intros He. apply ends_white_cons in He as [?|?]; [congruence|done].
Qed.

Lemma strip_spec s :
  exists l r, s = l +:+ PyStr.strip s +:+ r /\ all_white l /\ all_white r /\
              ~ starts_white (PyStr.strip s) /\ ~ ends_white (PyStr.strip s).
Proof.
  unfold PyStr.strip.
  destruct (lstrip_spec s) as (l & Hl & Hwl & Hns).
  destruct (rstrip_spec (PyStr.lstrip s)) as (r & Hr & Hwr & Hne).
  exists l, r. split_and!; [|done|done| |done].
  - by rewrite <- Hr.
  - intros (c & t & Hc & Heq). apply Hns. exists c, (t +:+ r). split; [done|].
    rewrite Hr at 1. rewrite Heq. by rewrite PyStrFacts.append_assoc.
Qed.

(** The pieces of a comma list are trimmed and not empty. *)
Lemma comma_pieces_trimmed s p :
  p ∈ comma_pieces s ->
  p <> "" /\ ~ starts_white p /\ ~ ends_white p /\
  exists q, q ∈ PyStr.split "," s /\ p = PyStr.strip q.
Proof.
  unfold comma_pieces. intros Hin. apply list_elem_of_In, filter_In in Hin as [Hin Hne].
  apply list_elem_of_In, list_elem_of_fmap in Hin as (q & -> & Hq).
  destruct (strip_spec q) as (_ & _ & _ & _ & _ & Hs & He).
  split_and!; [by intros Heq; rewrite Heq in Hne|done|done|by exists q].
Qed.

Lemma _expand_path_list_no_comma path :
  PyStr.contains "," path = false -> _expand_path_list path = [path].
Proof. intros H. unfold _expand_path_list. by rewrite H. Qed.

Lemma _expand_path_list_root_level u v :
  PyStr.contains "," u = false -> PyStr.contains "/" u = false ->
  _expand_path_list (u +:+ "," +:+ v) = comma_pieces (u +:+ "," +:+ v).
Proof.
  intros Hc Hs. unfold _expand_path_list.
  rewrite PyStrFacts.contains_append, Hc. simpl.
  destruct (PyStr.contains "/" (u +:+ "," +:+ v)) eqn:E; [|done]. simpl.
  rewrite PyStrFacts.contains_append, Hs in E.
  change ("," +:+ v) with (String "," v) in *. simpl in E.
  unfold PyStr.find.
  rewrite (PyStrFacts.index_of_append_past "," u),
    (PyStrFacts.index_of_append_past "/" u) by done. simpl.
  destruct (PyStrFacts.index_of_Some _ _ E) as [k ->]. simpl.
  destruct (Z.ltb_spec (Z.of_nat (String.length u + 0))
                       (Z.of_nat (String.length u + S k))); [done|lia].
Qed.

Lemma _expand_path_list_nested u v b r :
  u +:+ "/" +:+ v = b +:+ "/" +:+ r ->
  PyStr.contains "," u = false -> PyStr.contains "," v = true ->
  PyStr.contains "/" r = false ->
  _expand_path_list (b +:+ "/" +:+ r)
  = (fun n => b +:+ "/" +:+ n) <$> comma_pieces r.
Proof.
  intros Heq Hu Hv Hr. unfold _expand_path_list.
  assert (PyStr.contains "," (b +:+ "/" +:+ r) = true) as ->.
  { rewrite <- Heq, !PyStrFacts.contains_append, Hv. by rewrite !orb_true_r. }
  assert (PyStr.contains "/" (b +:+ "/" +:+ r) = true) as ->.
  { rewrite PyStrFacts.contains_append. change ("/" +:+ r) with (String "/" r).
    by rewrite PyStrFacts.contains_cons_same, orb_true_r. }
  simpl.
  assert ((PyStr.find "," (b +:+ "/" +:+ r) <? PyStr.find "/" (b +:+ "/" +:+ r))%Z = false) as ->.
  { rewrite <- Heq. unfold PyStr.find.
    rewrite (PyStrFacts.index_of_append_past "," u) by done.
    change ("/" +:+ v) with (String "/" v). simpl.
    destruct (PyStrFacts.index_of_Some _ _ Hv) as [k ->]. simpl.
    destruct (PyStrFacts.index_of_append_within "/" u v) as (j & -> & Hj).
    apply Z.ltb_ge. lia. }
  change ("/" +:+ r) with (String "/" r).
  rewrite PyStrFacts.rindex_of_append by done.
  rewrite PyStrFacts.take_append.
  replace (b +:+ String "/" r) with ((b +:+ "/") +:+ r)
    by (by rewrite PyStrFacts.append_assoc).
  rewrite PyStrFacts.drop_append, PyStrFacts.filter_strip_fmap.
  unfold comma_pieces. apply list_fmap_ext. intros _ n _.
  by rewrite PyStrFacts.append_assoc.
Qed.

(** * The claims *)

(** C1. No move is to make a node a descendant of itself.  A
    destination that spells the source's own segments otherwise passes
    both the identity check and the descendant check: [move] reports
    success, the moved node is now its own child, no path leads to it
    from the root, and the listing no longer shows it. *)
Theorem move_onto_own_path_cycle :
  let h := run [Create "a"] in
  dict_get "a" (kids h root) = Some 1 /\
  exists h',
    move h "a" "a/" = (h', Moved) /\
    walk h' 1 ["a"] = Some 1 /\
    (forall parts, walk h' root parts <> Some 1) /\
    list_root 2 h' = Some (h', []).
Proof.
  split; [done|]. eexists. split; [reflexivity|]. split_and!; try done.
  by intros [|part parts].
Qed.

(** C2, as the code has it.  When the destination's segments strictly
    extend the source's, [move] fails and leaves the store as it was;
    the outcome is DestinationIsDescendant once both paths are valid and
    the source resolves, and the earlier check that fails otherwise. *)
Theorem move_into_descendant_path h A B ext :
  ext <> [] -> segments B = segments A ++ ext ->
  move h A B =
    (h, if negb (_is_valid_path A && _is_valid_path B) then InvalidName
        else if negb (resolves h A) then SourceNotFound
        else DestinationIsDescendant).
Proof.
  intros Hext Hseg.
  assert (A <> B) as Hne.
  { intros ->. apply (f_equal length) in Hseg. rewrite length_app in Hseg.
    destruct ext; [done|simpl in Hseg; lia]. }
  assert (_is_subdirectory A B = true) as Hsub.
  { apply _is_subdirectory_spec. by exists ext. }
  destruct (_is_valid_path A) eqn:HA; [|by rewrite move_invalid by auto].
  destruct (_is_valid_path B) eqn:HB; [|by rewrite move_invalid by auto].
  destruct (resolves h A) eqn:Hr; simpl; [|by apply move_not_found].
  destruct (move_found h _ _ HA HB Hne Hr) as (?&?&?&?&_&_&->).
  by rewrite Hsub.
Qed.

Lemma move_into_descendant_path_witness :
  move (run [Create "a/b"]) "a" "a/b/c" = (run [Create "a/b"], DestinationIsDescendant).
Proof. by apply (move_into_descendant_path (run [Create "a/b"]) "a" "a/b/c" ["b"; "c"]). Defined.

(** C2 as stated fails: on the empty tree the source is not there, and
    that is what [move] reports for a descendant destination. *)
Lemma move_into_descendant_of_missing_source :
  segments "a/b" = segments "a" ++ ["b"] /\
  move empty_tree "a" "a/b" = (empty_tree, SourceNotFound) /\
  (move empty_tree "a" "a/b").2 <> DestinationIsDescendant.
Proof. by split_and!. Qed.

(** C3. A NameCollision leaves the store exactly as it was: nothing was
    created along the destination path. *)
Theorem move_collision_unchanged h source destination h' :
  wf h -> move h source destination = (h', NameCollision) -> h' = h.
Proof.
  intros Hwf Hm.
  destruct (_is_valid_path source) eqn:Hs; [|by rewrite move_invalid in Hm by auto].
  destruct (_is_valid_path destination) eqn:Hd; [|by rewrite move_invalid in Hm by auto].
  destruct (decide (source = destination)) as [->|Hne];
    [by rewrite move_identical in Hm|].
  destruct (resolves h source) eqn:Hr; [|by rewrite move_not_found in Hm].
  destruct (move_found h _ _ Hs Hd Hne Hr) as (sp&nd&nm&m&_&_&Heq).
  rewrite Heq in Hm. clear Heq.
  destruct (_is_subdirectory source destination); [done|].
  destruct (mkdir_p h root (segments destination)) as [h1 current] eqn:Hmk.
  destruct (dict_mem nm (kids h1 current)) eqn:Hmem; [|done].
  simplify_eq.
  destruct (mkdir_p_same_or_leaf _ _ _ _ _ Hwf
              (wf_root_lt _ Hwf) Hmk) as [?|Hleaf]; [done|].
  by rewrite Hleaf in Hmem.
Qed.

Lemma move_collision_unchanged_witness :
  let h := run [Create "a/b"; Create "c/b"] in
  (move h "a/b" "c").2 = NameCollision /\ (move h "a/b" "c").1 = h.
Proof.
  intros h. split; [reflexivity|].
  apply (move_collision_unchanged h "a/b" "c"); [apply run_wf|reflexivity].
Defined.

(** C4. [move] reports the first check that fails, in the order
    InvalidName, IdenticalPaths, SourceNotFound, DestinationIsDescendant;
    the checks after it play no part, and the store is left as it was. *)
Theorem move_first_failing_check h source destination :
  (_is_valid_path source = false \/ _is_valid_path destination = false ->
   move h source destination = (h, InvalidName)) /\
  (_is_valid_path source = true -> _is_valid_path destination = true ->
   source = destination ->
   move h source destination = (h, IdenticalPaths)) /\
  (_is_valid_path source = true -> _is_valid_path destination = true ->
   source <> destination -> resolves h source = false ->
   move h source destination = (h, SourceNotFound)) /\
  (_is_valid_path source = true -> _is_valid_path destination = true ->
   source <> destination -> resolves h source = true ->
   _is_subdirectory source destination = true ->
   move h source destination = (h, DestinationIsDescendant)).
Proof.
  split_and!.
  - apply move_invalid.
  - intros Hs _ <-. by apply move_identical.
  - apply move_not_found.
  - intros Hs Hd Hne Hr Hsub.
    destruct (move_found h _ _ Hs Hd Hne Hr) as (?&?&?&?&_&_&->).
    by rewrite Hsub.
Qed.

Lemma move_first_failing_check_witness :
  move empty_tree "a:b" "c" = (empty_tree, InvalidName) /\
  move empty_tree "a" "a" = (empty_tree, IdenticalPaths) /\
  move empty_tree "a" "b" = (empty_tree, SourceNotFound) /\
  move (run [Create "a"]) "a" "a/b" = (run [Create "a"], DestinationIsDescendant).
Proof.
  split_and!.
  - apply (move_first_failing_check empty_tree "a:b" "c"). by left.
  - by apply (move_first_failing_check empty_tree "a" "a").
  - by apply (move_first_failing_check empty_tree "a" "b").
  - by apply (move_first_failing_check (run [Create "a"]) "a" "a/b").
Defined.

(** C5, as the code has it.  From any well-formed store: a valid path
    with no comma in it (one that [create] does not split into a list)
    resolves to a present node after [create]; and for every path
    string whatever, a second [create] yields the same store as the
    first, and the same records. *)
Theorem create_effective_idempotent h P :
  wf h ->
  (_is_valid_path P = true -> PyStr.contains "," P = false ->
   exists parent node target_name,
     _get_node_and_parent (create h P).1 P = (parent, Some node, target_name)) /\
  create (create h P).1 P = create h P.
Proof.
  intros Hwf. split; [|by apply create_idempotent].
  intros Hv Hc. unfold create, _expand_path_list. rewrite Hc. simpl.
  destruct (create_one_spec h P Hwf) as (_&_&Hp&_).
  destruct (create_one h P) as [h1 o]. simpl in *.
  destruct (Hp Hv) as [c Hw].
  destruct (_get_node_and_parent_walk h1 P c) as (parent & nm & ->); [|done|by eauto].
  unfold _is_valid_path in Hv. by destruct (PyStr.nonempty P).
Qed.

Lemma create_effective_idempotent_witness :
  (exists parent node target_name,
     _get_node_and_parent (create empty_tree "a/b/c").1 "a/b/c"
     = (parent, Some node, target_name)) /\
  create (create empty_tree "x,y/z").1 "x,y/z" = create empty_tree "x,y/z".
Proof.
  split.
  - by apply (create_effective_idempotent empty_tree "a/b/c" wf_empty_tree).
  - apply (create_effective_idempotent empty_tree "x,y/z" wf_empty_tree).
Defined.

(** C5 as stated fails: a valid path may hold a comma, [create] then
    makes the directories of the list and none of the path's own name. *)
Lemma create_comma_path_not_present :
  _is_valid_path "a,b" = true /\
  _get_node_and_parent (create empty_tree "a,b").1 "a,b" = (Some root, None, "a,b").
Proof. by split. Qed.

(** C6. [delete] takes the path [list] for the root: with a directory
    of that name and another one, an affirmative reply empties the
    root instead of removing the one entry. *)
Theorem delete_list_clears_root :
  let h := run [Create "list"; Create "a"] in
  segments "list" = ["list"] /\
  _get_node_and_parent h "list" = (Some root, Some 1, "list") /\
  dict_get "a" (kids h root) = Some 2 /\
  exists h',
    delete h "list" "yes" = (h', DeletedRoot, Some "root directory and all its contents") /\
    kids h' root = [].
Proof. split_and!; try done. by eexists. Qed.

(** C7. A leaf is to be deleted without confirmation.  [delete] takes
    the path [list] for the root: where it resolves to a leaf of that
    name, [delete] asks whatever the reply, and a negative reply leaves
    the leaf in place. *)
Theorem delete_leaf_named_list_asks :
  let h := run [Create "list"] in
  in_strings "list" [""; "/"; "root"; "root/"] = false /\
  _get_node_and_parent h "list" = (Some root, Some 1, "list") /\
  kids h 1 = [] /\
  (forall reply,
     (delete h "list" reply).2 = Some "root directory and all its contents") /\
  delete h "list" "no" = (h, Cancelled, Some "root directory and all its contents").
Proof.
  split_and!; try done.
  intros reply. unfold delete.
  change (in_strings "list" root_forms) with true. cbv beta iota zeta.
  by destruct (negb (_confirm_deletion reply)).
Qed.

(** C8. [_expand_path_list]: a path without a comma is returned alone;
    when the first comma comes before any separator (or there is no
    separator) the whole string is split on commas, the pieces trimmed
    and the empty ones dropped; when it comes after a separator, the
    text up to and including the last separator is the base, put in
    front of each trimmed, non-empty piece of the rest.  Trimming a
    piece takes off the white space at its two ends and nothing else:
    what is left neither starts nor ends with a white-space character,
    those above 127 included (a no-break space, an ideographic space,
    a line separator). *)
Theorem _expand_path_list_spec :
  (forall path, PyStr.contains "," path = false -> _expand_path_list path = [path]) /\
  (forall u v,
     PyStr.contains "," u = false -> PyStr.contains "/" u = false ->
     _expand_path_list (u +:+ "," +:+ v) = comma_pieces (u +:+ "," +:+ v)) /\
  (forall u v b r,
     u +:+ "/" +:+ v = b +:+ "/" +:+ r ->
     PyStr.contains "," u = false -> PyStr.contains "," v = true ->
     PyStr.contains "/" r = false ->
     _expand_path_list (b +:+ "/" +:+ r)
     = (fun n => b +:+ "/" +:+ n) <$> comma_pieces r) /\
  (forall s, exists l r,
     s = l +:+ PyStr.strip s +:+ r /\ all_white l /\ all_white r /\
     ~ starts_white (PyStr.strip s) /\ ~ ends_white (PyStr.strip s)) /\
  (forall s p, p ∈ comma_pieces s ->
     p <> "" /\ ~ starts_white p /\ ~ ends_white p /\
     exists q, q ∈ PyStr.split "," s /\ p = PyStr.strip q) /\
  _expand_path_list ("a," +:+ PyStr.utf8 0xA0 +:+ "b") = ["a"; "b"] /\
  _expand_path_list
    ("x/" +:+ PyStr.utf8 0x09 +:+ "a" +:+ PyStr.utf8 0x3000 +:+ ", b c"
          +:+ PyStr.utf8 0x2028 +:+ "," +:+ PyStr.utf8 0x85)
  = ["x/a"; "x/b c"] /\
  _expand_path_list "fruits,family" = ["fruits"; "family"] /\
  _expand_path_list "fruits/citrus/lemon,lime"
  = ["fruits/citrus/lemon"; "fruits/citrus/lime"].
Proof.
  split_and!; [apply _expand_path_list_no_comma|apply _expand_path_list_root_level
              |apply _expand_path_list_nested|apply strip_spec
              |apply comma_pieces_trimmed|done..].
Qed.

Lemma _expand_path_list_spec_witness :
  _expand_path_list "a/b" = ["a/b"] /\
  _expand_path_list ("x, y/z,,w " +:+ PyStr.utf8 0x2003) = ["x"; "y/z"; "w"] /\
  _expand_path_list "number/odd/1, 3,,5" = ["number/odd/1"; "number/odd/3"; "number/odd/5"].
Proof.
  destruct _expand_path_list_spec as (H1 & H2 & H3 & _).
  split_and!.
  - by apply (H1 "a/b").
  - by apply (H2 "x" (" y/z,,w " +:+ PyStr.utf8 0x2003)).
  - by apply (H3 "number" "odd/1, 3,,5" "number/odd" "1, 3,,5").
Defined.

(** C9. On every tree store, and so on every store reached from the
    empty tree by create, delete and move, [list] returns once the fuel
    exceeds the size of the store and hands the store back exactly as
    it was.  Its lines are those of the directories of the tree, each
    once and none left out at any depth: line by line they have the
    indents and names of the paths that lead from the root to a
    directory, in the order in which a directory comes before those
    below it and siblings come in strictly ascending order of name.
    Whatever the store, a listing that returns has not changed it.  The
    order at a node depends on the set of names alone, not on the order
    of insertion: after creating [b] and then [a], [a] is listed before
    [b], and so below the root as at the root.  The empty tree yields
    no line. *)
Theorem list_alphabetical_read_only :
  (forall h, tree_store h ->
     exists out paths,
       (forall fuel, length h < fuel -> list_root fuel h = Some (h, out)) /\
       Forall2 line_of paths out /\
       (forall p, p ∈ paths <-> p <> [] /\ is_Some (walk h root p)) /\
       StronglySorted path_lt paths /\
       siblings_in_order out) /\
  (forall cs,
     exists out paths,
       (forall fuel, length (run cs) < fuel ->
                     list_root fuel (run cs) = Some (run cs, out)) /\
       Forall2 line_of paths out /\
       (forall p, p ∈ paths <-> p <> [] /\ is_Some (walk (run cs) root p)) /\
       StronglySorted path_lt paths /\
       siblings_in_order out) /\
  (forall fuel h h' out, list_root fuel h = Some (h', out) -> h' = h) /\
  (forall keys1 keys2 : list string,
     keys1 ≡ₚ keys2 -> sorted keys1 = sorted keys2) /\
  (let h := run [Create "b"; Create "a"] in
   dict_keys (kids h root) = ["b"; "a"] /\
   exists out, list_root 2 h = Some (h, out) /\ e_name <$> out = ["a"; "b"]) /\
  (let h := run [Create "b/y"; Create "a/x"; Create "b/x"] in
   exists out,
     list_root 3 h = Some (h, out) /\
     (fun e => (e_indent e, e_name e)) <$> out
     = [(0, "a"); (1, "x"); (0, "b"); (1, "x"); (1, "y")]) /\
  list_root 1 empty_tree = Some (empty_tree, []).
Proof.
  assert (forall h, tree_store h ->
     exists out paths,
       (forall fuel, length h < fuel -> list_root fuel h = Some (h, out)) /\
       Forall2 line_of paths out /\
       (forall p, p ∈ paths <-> p <> [] /\ is_Some (walk h root p)) /\
       StronglySorted path_lt paths /\
       siblings_in_order out) as Hgen.
  { intros h Ht.
    destruct (list_root_lines h Ht) as (out & paths & Hout & Hlines & Hin & Hsorted).
    destruct (list_spec h (proj1 Ht) (length h) root 0 "" (tree_store_height h Ht))
      as (out' & Hout' & _ & Hlevels).
    assert (out' = out) as ->.
    { specialize (Hout (S (length h)) (Nat.lt_succ_diag_r _)).
      specialize (Hout' (S (length h)) (Nat.lt_succ_diag_r _)). congruence. }
    exists out, paths. split_and!; [done| |done|done|by apply sorted_levels_siblings].
    eapply Forall2_impl; [exact Hlines|]. intros p e Hp.
    by apply line_at_line_of in Hp. }
  split_and!.
  - done.
  - intros cs. apply Hgen, run_tree_store.
  - intros fuel h h' out. apply list_unchanged.
  - apply sorted_insertion_order.
  - split; [done|]. by eexists.
  - by eexists.
  - done.
Qed.

Lemma list_alphabetical_read_only_witness :
  let h := run [Create "b"; Create "a/y"; Create "a/x,y"] in
  exists out paths,
    list_root 6 h = Some (h, out) /\ Forall2 line_of paths out /\
    ["a"; "x"] ∈ paths /\ StronglySorted path_lt paths /\ siblings_in_order out.
Proof.
  intros h.
  destruct list_alphabetical_read_only as (Hlist & _).
  destruct (Hlist h (run_tree_store _)) as (out & paths & Hout & Hlines & Hin & Hs & Hsib).
  exists out, paths. split_and!; [apply Hout; simpl; lia|done| |done|done].
  apply Hin. split; [done|]. by eexists.
Defined.

(** C10. A source that resolves, moved to a valid destination whose
    segments are the source's without the last (its current parent, the
    root included), collides with its own entry: NameCollision, and the
    store is as it was. *)
Theorem move_to_own_parent_collides h source destination :
  wf h -> resolves h source = true -> _is_valid_path destination = true ->
  segments destination = removelast (segments source) ->
  move h source destination = (h, NameCollision).
Proof.
  intros Hwf Hr Hd Hseg.
  pose proof (resolves_valid _ _ Hwf Hr) as Hs.
  assert (exists nm, segments source = segments destination ++ [nm]) as [nm0 Hsplit0].
  { unfold resolves in Hr.
    destruct (_get_node_and_parent h source) as [[[sp|] nd] nm] eqn:Hg; [|done].
    apply _get_node_and_parent_Some in Hg as (_ & Hsplit & _). exists nm. by rewrite Hseg. }
  assert (source <> destination) as Hne.
  { intros ->. apply (f_equal length) in Hsplit0. rewrite length_app in Hsplit0.
    simpl in Hsplit0. lia. }
  destruct (move_found h _ _ Hs Hd Hne Hr) as (sp&nd&nm&m&Hg&Hget&->).
  apply _get_node_and_parent_Some in Hg as (_ & _ & Hw & _).
  unfold _is_subdirectory.
  destruct (Nat.leb_spec (length (segments destination)) (length (segments source))) as [_|Hlt].
  2:{ rewrite Hsplit0, length_app in Hlt. simpl in Hlt. lia. }
  rewrite Hseg, (mkdir_p_walk _ _ _ _ Hw).
  by rewrite (proj2 (dict_mem_true _ _) (ex_intro _ m Hget)).
Qed.

Lemma move_to_own_parent_collides_witness :
  move (run [Create "a/b"]) "a/b" "a" = (run [Create "a/b"], NameCollision) /\
  move (run [Create "a/b"]) "a" "/" = (run [Create "a/b"], NameCollision).
Proof.
  split.
  - by apply (move_to_own_parent_collides (run [Create "a/b"]) "a/b" "a" (run_wf _)).
  - by apply (move_to_own_parent_collides (run [Create "a/b"]) "a" "/" (run_wf _)).
Defined.

(** * Further properties *)

(** ** Walks and single entries *)

(** A walk that never takes the entry [nm] of the node at [init]
    survives in any store that has kept every other entry. *)
Lemma walk_avoid_edge h h' init nm sp :
  tree_store h -> walk h root init = Some sp ->
  (forall x k v, dict_get k (kids h x) = Some v -> ~ (x = sp /\ k = nm) ->
                 dict_get k (kids h' x) = Some v) ->
  forall q pre c x,
    walk h root pre = Some c -> walk h c q = Some x ->
    (forall q1 q2, q = q1 ++ nm :: q2 -> pre ++ q1 <> init) ->
    walk h' c q = Some x.
Proof.
  intros Ht Hinit Hkeep. induction q as [|k q IH]; intros pre c x Hpre Hq Havoid.
  { done. }
  simpl in Hq. destruct (dict_get k (kids h c)) as [c1|] eqn:E; [|done].
  simpl. rewrite (Hkeep _ _ _ E).
  - apply (IH (pre ++ [k])); [|done|].
    + apply walk_snoc. by exists c.
    + intros q1 q2 -> Heq. apply (Havoid (k :: q1) q2); [done|].
      by rewrite <- Heq, <- app_assoc.
  - intros [-> ->]. apply (Havoid [] q); [done|].
    rewrite app_nil_r. by eapply walk_inj.
Qed.

(** Where a store has gained one entry only, under a name that the
    node did not have, the walks of the old store are unchanged. *)
Lemma walk_agree h h' cur nm :
  dict_get nm (kids h cur) = None ->
  (forall x k v, dict_get k (kids h' x) = Some v ->
                 (x = cur /\ k = nm) \/ dict_get k (kids h x) = Some v) ->
  forall q c z y, walk h c q = Some z -> walk h' c q = Some y -> y = z.
Proof.
  intros Hnone Hback. induction q as [|k q IH]; intros c z y Hz Hy.
  { simpl in *. congruence. }
  simpl in *.
  destruct (dict_get k (kids h c)) as [c1|] eqn:E; [|done].
  destruct (dict_get k (kids h' c)) as [c2|] eqn:E'; [|done].
  destruct (Hback _ _ _ E') as [[-> ->]|E2]; [congruence|].
  assert (c2 = c1) as -> by congruence. eauto.
Qed.

Lemma prefix_avoid (init : list string) nm q :
  ~ (init ++ [nm]) `prefix_of` q ->
  forall q1 q2, q = q1 ++ nm :: q2 -> [] ++ q1 <> init.
Proof.
  intros Hnp q1 q2 -> Heq. simpl in Heq. subst q1. apply Hnp.
  exists q2. by rewrite <- app_assoc.
Qed.

(** ** delete *)

Lemma delete_Deleted_inv h path reply h' asked :
  delete h path reply = (h', DeletedSubtree, asked) ->
  exists parent node target_name target_node,
    _get_node_and_parent h path = (Some parent, node, target_name) /\
    dict_get target_name (kids h parent) = Some target_node /\
    h' = set_kids h parent (dict_del target_name (kids h parent)).
Proof.
  unfold delete. destruct (in_strings path root_forms).
  { by destruct (negb (_confirm_deletion reply)). }
  destruct (_get_node_and_parent h path) as [[[parent|] nd] nm]; [|done].
  destruct (dict_get nm (kids h parent)) as [target|] eqn:E; [|done].
  destruct (dict_nonempty (kids h target)); [destruct (negb _)|];
    intros [= <- <-]; by eexists _, _, _, _.
Qed.

Lemma delete_Deleted_absent h path reply h' asked :
  delete h path reply = (h', DeletedSubtree, asked) -> resolves h' path = false.
Proof.
  intros (parent & nd & nm & target & Hg & Hget & ->)%delete_Deleted_inv.
  pose proof (dict_get_kids_lt _ _ _ _ Hget) as Hlt.
  apply _get_node_and_parent_Some in Hg as (Hne & Hsplit & Hw & _).
  unfold resolves, _get_node_and_parent. rewrite Hne. simpl.
  destruct (String.eqb path "/"); [done|].
  destruct (last (segments path)) as [nm'|] eqn:Hlast; [|done].
  assert (nm' = nm) as ->.
  { rewrite Hsplit, last_snoc in Hlast. congruence. }
  set (h' := set_kids h parent (dict_del nm (kids h parent))).
  destruct (walk h' root (removelast (segments path))) as [y|] eqn:Hy; [|done].
  assert (y = parent) as ->.
  { pose proof (walk_extends _ _ _ _ _ (extends_del_child h parent nm) Hy). congruence. }
  apply dict_mem_false. unfold h'. rewrite kids_set_kids_eq by done.
  apply dict_get_del_eq.
Qed.

(** X1. Once [delete] has removed a directory, its path resolves no
    more. *)
Theorem delete_then_absent h path reply h' asked :
  delete h path reply = (h', DeletedSubtree, asked) -> resolves h' path = false.
Proof. apply delete_Deleted_absent. Qed.

Lemma delete_then_absent_witness :
  resolves (delete (run [Create "a/b/c"]) "a/b" "y").1.1 "a/b" = false.
Proof.
  by apply (delete_then_absent (run [Create "a/b/c"]) "a/b" "y"
              (delete (run [Create "a/b/c"]) "a/b" "y").1.1
              (delete (run [Create "a/b/c"]) "a/b" "y").2).
Defined.

(** X2. [delete] touches nothing outside the deleted directory: a path
    that does not pass through it leads where it led before. *)
Theorem delete_elsewhere_unchanged h path reply h' asked parts x :
  tree_store h ->
  delete h path reply = (h', DeletedSubtree, asked) ->
  ~ segments path `prefix_of` parts ->
  walk h root parts = Some x -> walk h' root parts = Some x.
Proof.
  intros Ht (parent & nd & nm & target & Hg & Hget & ->)%delete_Deleted_inv Hnp Hw.
  apply _get_node_and_parent_Some in Hg as (_ & Hsplit & Hinit & _).
  rewrite Hsplit in Hnp.
  eapply (walk_avoid_edge h _ _ nm parent Ht Hinit) with (pre := []); [|done|done|].
  - intros y k v Hk Hne. destruct (decide (y = parent)) as [->|Hy].
    + rewrite kids_set_kids_eq by (by eapply dict_get_kids_lt).
      rewrite dict_get_del_ne; [done|]. intros ->. by apply Hne.
    + by rewrite kids_set_kids_ne.
  - by apply prefix_avoid.
Qed.

Lemma delete_elsewhere_unchanged_witness :
  walk (delete (run [Create "a/b"; Create "a/c/d"]) "a/b" "").1.1 root ["a"; "c"; "d"]
  = Some 4.
Proof.
  apply (delete_elsewhere_unchanged (run [Create "a/b"; Create "a/c/d"]) "a/b" ""
           _ None ["a"; "c"; "d"] 4 (run_tree_store _)); [reflexivity| |reflexivity].
  intros [k Hk]. discriminate Hk.
Defined.

(** X3. After the root has been cleared no path resolves, and the
    listing is empty. *)
Theorem delete_root_clears h path reply h' asked :
  wf h -> delete h path reply = (h', DeletedRoot, asked) ->
  (forall p, resolves h' p = false) /\
  (forall part parts, walk h' root (part :: parts) = None) /\
  list_root 1 h' = Some (h', []).
Proof.
  intros Hwf Hd.
  assert (h' = set_kids h root []) as ->.
  { revert Hd. unfold delete. destruct (in_strings path root_forms).
    - destruct (negb (_confirm_deletion reply)); [done|]. by intros [= <-].
    - destruct (_get_node_and_parent h path) as [[[parent|] nd] nm]; [|done].
      destruct (dict_get nm (kids h parent)) as [target|]; [|done].
      by destruct (dict_nonempty (kids h target)); [destruct (negb _)|]. }
  assert (kids (set_kids h root []) root = []) as Hk.
  { apply kids_set_kids_eq. by apply wf_root_lt. }
  assert (forall part parts, walk (set_kids h root []) root (part :: parts) = None) as Hnone.
  { intros part parts. simpl. by rewrite Hk. }
  split_and!; [|done|].
  - intros p. unfold resolves.
    destruct (_get_node_and_parent _ p) as [[[parent|] nd] nm] eqn:Hg; [|done].
    apply _get_node_and_parent_Some in Hg as (_ & Hsplit & Hw & _).
    destruct (removelast (segments p)) as [|part parts]; [|by rewrite Hnone in Hw].
    simpl in Hw. simplify_eq. by rewrite Hk.
  - unfold list_root. cbn [list_]. by rewrite Hk.
Qed.

Lemma delete_root_clears_witness :
  resolves (delete (run [Create "a/b"; Create "c"]) "/" "Y").1.1 "c" = false.
Proof.
  by eapply (delete_root_clears (run [Create "a/b"; Create "c"]) "/" "Y" _ _ (run_wf _)).
Defined.

(** ** move *)

(** The store after the two assignments that end a successful [move]. *)
Lemma move_Moved_inv h source destination h' :
  move h source destination = (h', Moved) ->
  exists src_parent src_node src_name node_to_move h1 current,
    _is_valid_path source = true /\ _is_valid_path destination = true /\
    _get_node_and_parent h source = (Some src_parent, src_node, src_name) /\
    dict_get src_name (kids h src_parent) = Some node_to_move /\
    _is_subdirectory source destination = false /\
    mkdir_p h root (segments destination) = (h1, current) /\
    dict_get src_name (kids h1 current) = None /\
    h' = set_kids (set_kids h1 current (dict_set src_name node_to_move (kids h1 current)))
           src_parent
           (dict_del src_name
              (kids (set_kids h1 current
                       (dict_set src_name node_to_move (kids h1 current))) src_parent)).
Proof.
  intros Hm.
  destruct (_is_valid_path source) eqn:Hs; [|by rewrite move_invalid in Hm by auto].
  destruct (_is_valid_path destination) eqn:Hd; [|by rewrite move_invalid in Hm by auto].
  destruct (decide (source = destination)) as [->|Hne];
    [by rewrite move_identical in Hm|].
  destruct (resolves h source) eqn:Hr; [|by rewrite move_not_found in Hm].
  destruct (move_found h _ _ Hs Hd Hne Hr) as (sp&nd&nm&m&Hg&Hget&Heq).
  rewrite Heq in Hm. clear Heq.
  destruct (_is_subdirectory source destination) eqn:Hsub; [done|].
  destruct (mkdir_p h root (segments destination)) as [h1 current] eqn:Hmk.
  destruct (dict_mem nm (kids h1 current)) eqn:Hmem; [done|].
  apply dict_mem_false in Hmem. cbv zeta in Hm. injection Hm as <-.
  eexists sp, nd, nm, m, h1, current. by split_and!.
Qed.

Section graft.
Variables (h1 : heap) (sp cur m : nat) (nm : string).
Hypothesis Hsp : dict_get nm (kids h1 sp) = Some m.
Hypothesis Hcur : cur < length h1.
Hypothesis Hnone : dict_get nm (kids h1 cur) = None.

Let h2 := set_kids h1 cur (dict_set nm m (kids h1 cur)).
Let h3 := set_kids h2 sp (dict_del nm (kids h2 sp)).

Lemma graft_ne : cur <> sp.
Proof. intros ->. congruence. Qed.

Lemma graft_kids_sp : kids h3 sp = dict_del nm (kids h1 sp).
Proof.
  unfold h3. rewrite kids_set_kids_eq.
  - unfold h2. by rewrite kids_set_kids_ne by apply graft_ne.
  - unfold h2. rewrite length_set_kids. by eapply dict_get_kids_lt.
Qed.

Lemma graft_kids_cur : kids h3 cur = dict_set nm m (kids h1 cur).
Proof.
  unfold h3. rewrite kids_set_kids_ne by (symmetry; apply graft_ne).
  unfold h2. by rewrite kids_set_kids_eq.
Qed.

Lemma graft_kids_other x : x <> sp -> x <> cur -> kids h3 x = kids h1 x.
Proof.
  intros H1 H2. unfold h3. rewrite kids_set_kids_ne by done.
  unfold h2. by rewrite kids_set_kids_ne.
Qed.

Lemma graft_keeps x k v :
  dict_get k (kids h1 x) = Some v -> ~ (x = sp /\ k = nm) ->
  dict_get k (kids h3 x) = Some v.
Proof.
  intros Hk Hne. destruct (decide (x = sp)) as [->|Hx].
  { rewrite graft_kids_sp, dict_get_del_ne; [done|]. intros ->. by apply Hne. }
  destruct (decide (x = cur)) as [->|Hx'].
  { rewrite graft_kids_cur, dict_get_set_ne; [done|]. intros ->. congruence. }
  by rewrite graft_kids_other.
Qed.

Lemma graft_new : dict_get nm (kids h3 cur) = Some m.
Proof. rewrite graft_kids_cur. apply dict_get_set_eq. Qed.

Lemma graft_old : dict_get nm (kids h3 sp) = None.
Proof. rewrite graft_kids_sp. apply dict_get_del_eq. Qed.

Lemma graft_back x k v :
  dict_get k (kids h3 x) = Some v ->
  (x = cur /\ k = nm) \/ dict_get k (kids h1 x) = Some v.
Proof.
  intros Hk. destruct (decide (x = sp)) as [->|Hx].
  { rewrite graft_kids_sp in Hk. apply dict_get_del_Some in Hk as [_ Hk]. by right. }
  destruct (decide (x = cur)) as [->|Hx'].
  { rewrite graft_kids_cur in Hk.
    apply dict_get_set_Some in Hk as [[-> _]|[_ Hk]]; [by left|by right]. }
  rewrite graft_kids_other in Hk by done. by right.
Qed.
End graft.

Lemma move_Moved_source_absent h source destination h' :
  wf h -> move h source destination = (h', Moved) -> resolves h' source = false.
Proof.
  intros Hwf (sp&nd&nm&m&h1&cur&Hs&Hd&Hg&Hget&_&Hmk&Hnone&->)%move_Moved_inv.
  destruct (mkdir_p_spec _ _ _ _ _ Hwf (wf_root_lt _ Hwf)
              (_is_valid_path_parts _ Hd) Hmk) as (Hwf1 & Hcur & Hext & _).
  apply _get_node_and_parent_Some in Hg as (Hne & Hsplit & Hw & _).
  apply Hext in Hget. apply (walk_extends _ _ _ _ _ Hext) in Hw.
  unfold resolves, _get_node_and_parent. rewrite Hne. simpl.
  destruct (String.eqb source "/"); [done|].
  destruct (last (segments source)) as [nm'|] eqn:Hlast; [|done].
  assert (nm' = nm) as ->.
  { rewrite Hsplit, last_snoc in Hlast. congruence. }
  match goal with |- context [walk ?X root _] => set (h3 := X) end.
  destruct (walk h3 root (removelast (segments source))) as [y|] eqn:Hy; [|done].
  assert (y = sp) as ->.
  { eapply (walk_agree h1 h3 cur nm Hnone); [|exact Hw|exact Hy].
    intros x k v. by apply graft_back. }
  apply dict_mem_false. by apply graft_old.
Qed.

(** X4. After a successful [move] the source path resolves no more. *)
Theorem move_then_source_absent h source destination h' :
  wf h -> move h source destination = (h', Moved) -> resolves h' source = false.
Proof. apply move_Moved_source_absent. Qed.

Lemma move_then_source_absent_witness :
  resolves (move (run [Create "a/b"; Create "c"]) "a/b" "c").1 "a/b" = false.
Proof.
  by apply (move_then_source_absent (run [Create "a/b"; Create "c"]) "a/b" "c" _ (run_wf _)).
Defined.

(** X5. A successful [move] to a destination that does not spell the
    source's own segments puts the moved node under the destination,
    by its own name, with everything that was below it. *)
Theorem move_relocates h source destination h' src_parent node src_name rest x :
  tree_store h -> move h source destination = (h', Moved) ->
  segments source <> segments destination ->
  _get_node_and_parent h source = (Some src_parent, Some node, src_name) ->
  walk h node rest = Some x ->
  walk h' root (segments destination ++ src_name :: rest) = Some x.
Proof.
  intros Ht (sp&nd&nm&m&h1&cur&Hs&Hd&Hg&Hget&Hsub&Hmk&Hnone&->)%move_Moved_inv
    Hdiff Hg' Hrest.
  rewrite Hg in Hg'. simplify_eq.
  pose proof Ht as (Hwf & _).
  destruct (mkdir_p_spec _ _ _ _ _ Hwf (wf_root_lt _ Hwf)
              (_is_valid_path_parts _ Hd) Hmk) as (Hwf1 & Hcur & Hext & Hdest).
  pose proof (mkdir_p_tree_store _ _ _ _ _ Ht (wf_root_lt _ Hwf)
                (_is_valid_path_parts _ Hd) Hmk) as Ht1.
  apply _get_node_and_parent_Some in Hg as (_ & Hsplit & Hw & Hnd).
  assert (m = node) as -> by congruence.
  pose proof (Hext _ _ _ Hget) as Hget'. apply (walk_extends _ _ _ _ _ Hext) in Hw.
  apply (walk_extends _ _ _ _ _ Hext) in Hrest.
  match goal with |- walk ?X root _ = _ => set (h3 := X) end.
  assert (Hkeep : forall y k v, dict_get k (kids h1 y) = Some v ->
                    ~ (y = src_parent /\ k = src_name) -> dict_get k (kids h3 y) = Some v).
  { intros y k v. by apply graft_keeps. }
  rewrite walk_app.
  rewrite (walk_avoid_edge h1 h3 _ src_name src_parent Ht1 Hw Hkeep
             (segments destination) [] root cur); [|done|done|].
  - simpl. unfold h3. rewrite graft_new by done.
    apply (walk_avoid_edge h1 h3 _ src_name src_parent Ht1 Hw Hkeep rest
             (removelast (segments source) ++ [src_name]) node x); [|done|].
    + apply walk_snoc. by exists src_parent.
    + intros q1 q2 _ Heq. apply (f_equal length) in Heq.
      rewrite !length_app in Heq. simpl in Heq. lia.
  - intros q1 q2 Hq Heq. simpl in Heq. subst q1.
    destruct q2 as [|k q2].
    + apply Hdiff. rewrite Hq. exact Hsplit.
    + assert (_is_subdirectory source destination = true) as Hsub'; [|congruence].
      apply _is_subdirectory_spec. exists (k :: q2). split; [done|].
      rewrite Hq.
      transitivity ((removelast (segments source) ++ [src_name]) ++ k :: q2);
        [by rewrite <- app_assoc|by rewrite <- Hsplit].
Qed.

Lemma move_relocates_witness :
  walk (move (run [Create "a/b/c"; Create "d"]) "a/b" "d/e").1 root ["d"; "e"; "b"; "c"]
  = Some 3.
Proof.
  apply (move_relocates (run [Create "a/b/c"; Create "d"]) "a/b" "d/e" _ 1 2 "b" ["c"] 3
           (run_tree_store _)); try reflexivity.
  discriminate.
Defined.

(** X6. A successful [move] touches nothing outside the moved
    directory: a path that does not pass through the source leads where
    it led before. *)
Theorem move_elsewhere_unchanged h source destination h' parts x :
  tree_store h -> move h source destination = (h', Moved) ->
  ~ segments source `prefix_of` parts ->
  walk h root parts = Some x -> walk h' root parts = Some x.
Proof.
  intros Ht (sp&nd&nm&m&h1&cur&Hs&Hd&Hg&Hget&Hsub&Hmk&Hnone&->)%move_Moved_inv
    Hnp Hparts.
  pose proof Ht as (Hwf & _).
  destruct (mkdir_p_spec _ _ _ _ _ Hwf (wf_root_lt _ Hwf)
              (_is_valid_path_parts _ Hd) Hmk) as (Hwf1 & Hcur & Hext & Hdest).
  pose proof (mkdir_p_tree_store _ _ _ _ _ Ht (wf_root_lt _ Hwf)
                (_is_valid_path_parts _ Hd) Hmk) as Ht1.
  apply _get_node_and_parent_Some in Hg as (_ & Hsplit & Hw & _).
  apply Hext in Hget. apply (walk_extends _ _ _ _ _ Hext) in Hw.
  apply (walk_extends _ _ _ _ _ Hext) in Hparts.
  rewrite Hsplit in Hnp.
  eapply (walk_avoid_edge h1 _ _ nm sp Ht1 Hw) with (pre := []); [|done|done|].
  - intros y k v. by apply graft_keeps.
  - by apply prefix_avoid.
Qed.

Lemma move_elsewhere_unchanged_witness :
  walk (move (run [Create "a/b"; Create "a/c/d"]) "a/b" "a/c").1 root ["a"; "c"; "d"]
  = Some 4.
Proof.
  apply (move_elsewhere_unchanged (run [Create "a/b"; Create "a/c/d"]) "a/b" "a/c"
           _ ["a"; "c"; "d"] 4 (run_tree_store _)); [reflexivity| |reflexivity].
  intros [k Hk]. discriminate Hk.
Defined.

(** X7. [move] and [delete] are all or nothing: unless [move] reports
    Moved it leaves the store as it was, directories along the
    destination included; and so does [delete] when it reports NotFound
    or Cancelled. *)
Theorem failure_leaves_store h :
  wf h ->
  (forall source destination,
     (move h source destination).2 <> Moved -> (move h source destination).1 = h) /\
  (forall path reply,
     (delete h path reply).1.2 = NotFound \/ (delete h path reply).1.2 = Cancelled ->
     (delete h path reply).1.1 = h).
Proof.
  intros Hwf. split.
  - intros source destination Hm.
    destruct (_is_valid_path source) eqn:Hs; [|by rewrite move_invalid by auto].
    destruct (_is_valid_path destination) eqn:Hd; [|by rewrite move_invalid by auto].
    destruct (decide (source = destination)) as [->|Hne];
      [by rewrite move_identical|].
    destruct (resolves h source) eqn:Hr; [|by rewrite move_not_found].
    destruct (move_found h _ _ Hs Hd Hne Hr) as (sp&nd&nm&m&_&_&Heq).
    rewrite Heq in Hm |- *. clear Heq.
    destruct (_is_subdirectory source destination); [done|].
    destruct (mkdir_p h root (segments destination)) as [h1 current] eqn:Hmk.
    destruct (dict_mem nm (kids h1 current)) eqn:Hmem; [|done]. simpl.
    destruct (mkdir_p_same_or_leaf _ _ _ _ _ Hwf (wf_root_lt _ Hwf) Hmk)
      as [?|Hleaf]; [done|].
    by rewrite Hleaf in Hmem.
  - intros path reply. unfold delete.
    destruct (in_strings path root_forms).
    { destruct (negb (_confirm_deletion reply)); simpl; [done|]. by intros [|]. }
    destruct (_get_node_and_parent h path) as [[[parent|] nd] nm]; [|done].
    destruct (dict_get nm (kids h parent)) as [target|]; [|done].
    destruct (dict_nonempty (kids h target)); [destruct (negb _)|]; simpl;
      try done; by intros [|].
Qed.

(** ** Paths *)

Lemma split_cons_inv sep s : exists w ws, PyStr.split sep s = w :: ws.
Proof.
  induction s as [|a s (w & ws & IH)]; simpl; [by eexists _, _|].
  destruct (Ascii.eqb a sep); [by eexists _, _|]. rewrite IH. by eexists _, _.
Qed.

Lemma split_append_sep sep a b :
  PyStr.split sep (a +:+ String sep b) = PyStr.split sep a ++ PyStr.split sep b.
Proof.
  induction a as [|c a IH].
  - rewrite PyStrFacts.append_nil_l. simpl. by rewrite Ascii.eqb_refl.
  - rewrite PyStrFacts.append_cons. simpl. rewrite IH.
    destruct (Ascii.eqb c sep); [done|].
    by destruct (split_cons_inv sep a) as (w & ws & ->).
Qed.

Lemma segments_append_sep a b :
  segments (a +:+ "/" +:+ b) = segments a ++ segments b.
Proof.
  unfold segments. change ("/" +:+ b) with (String "/" b).
  by rewrite split_append_sep, List.filter_app.
Qed.

(** X8. Separators only separate: the segments of two paths joined by a
    slash are the segments of the one followed by those of the other,
    so that leading, trailing and repeated slashes add nothing. *)
Theorem segments_joined a b :
  segments (a +:+ "/" +:+ b) = segments a ++ segments b /\
  segments ("/" +:+ a) = segments a /\
  segments (a +:+ "/") = segments a /\
  segments (a +:+ "//" +:+ b) = segments (a +:+ "/" +:+ b).
Proof.
  split_and!.
  - apply segments_append_sep.
  - apply (segments_append_sep "" a).
  - rewrite <- (app_nil_r (segments a)). apply (segments_append_sep a "").
  - change ("//" +:+ b) with ("/" +:+ "/" +:+ b).
    by rewrite !segments_append_sep.
Qed.

(** X9. Resolution reads a path through its segments only: two
    spellings of one segment sequence resolve alike in every store. *)
Theorem _get_node_and_parent_spelling h p q :
  segments p = segments q -> _get_node_and_parent h p = _get_node_and_parent h q.
Proof.
  intros Heq.
  assert (Hroot : forall s, segments s = [] ->
                            _get_node_and_parent h s = (None, Some root, "")).
  { intros s Hs. unfold _get_node_and_parent.
    destruct (negb (PyStr.nonempty s) || String.eqb s "/"); [done|]. by rewrite Hs. }
  assert (Hsegs : forall s, segments s <> [] ->
    _get_node_and_parent h s =
      match last (segments s) with
      | None => (None, Some root, "")
      | Some target_name =>
          match walk h root (removelast (segments s)) with
          | None => (None, None, target_name)
          | Some current =>
              (Some current, dict_get target_name (kids h current), target_name)
          end
      end).
  { intros s Hs. unfold _get_node_and_parent.
    destruct (PyStr.nonempty s) eqn:E; [|by destruct s]. simpl.
    destruct (String.eqb s "/") eqn:E'; [|done].
    apply String.eqb_eq in E' as ->. by destruct Hs. }
  destruct (segments p) as [|part parts] eqn:Hp.
  - rewrite (Hroot p Hp), (Hroot q); done.
  - rewrite (Hsegs p), (Hsegs q) by congruence. by rewrite Hp, <- Heq.
Qed.

Lemma _get_node_and_parent_spelling_witness :
  _get_node_and_parent (run [Create "a/b"]) "//a//b/"
  = _get_node_and_parent (run [Create "a/b"]) "a/b".
Proof. by apply _get_node_and_parent_spelling. Defined.

(** X10. [_is_subdirectory] is a strict order on paths: no path is below
    itself, two paths are not below each other, and below is
    transitive. *)
Theorem _is_subdirectory_strict_order :
  (forall A, _is_subdirectory A A = false) /\
  (forall A B, _is_subdirectory A B = true -> _is_subdirectory B A = false) /\
  (forall A B C, _is_subdirectory A B = true -> _is_subdirectory B C = true ->
                 _is_subdirectory A C = true).
Proof.
  split_and!.
  - intros A. unfold _is_subdirectory. by rewrite Nat.leb_refl.
  - intros A B H. apply _is_subdirectory_spec in H as (ext & Hne & HB).
    unfold _is_subdirectory. rewrite HB, length_app.
    destruct (Nat.leb_spec (length (segments A)) (length (segments A) + length ext));
      [done|lia].
  - intros A B C H1 H2.
    apply _is_subdirectory_spec in H1 as (e1 & Hne1 & HB).
    apply _is_subdirectory_spec in H2 as (e2 & Hne2 & HC).
    apply _is_subdirectory_spec. exists (e1 ++ e2). split.
    + by destruct e1.
    + by rewrite HC, HB, <- app_assoc.
Qed.

Lemma _is_subdirectory_strict_order_witness :
  _is_subdirectory "a/b" "a" = false /\ _is_subdirectory "a" "a/b/c" = true.
Proof.
  destruct _is_subdirectory_strict_order as (_ & Hasym & Htrans). split.
  - by apply (Hasym "a" "a/b").
  - by apply (Htrans "a" "a/b" "a/b/c").
Defined.

(** X11. A path joined from two parts is valid exactly when each part is
    empty or valid. *)
Theorem _is_valid_path_joined a b :
  _is_valid_path (a +:+ "/" +:+ b) = true <->
  (a = "" \/ _is_valid_path a = true) /\ (b = "" \/ _is_valid_path b = true).
Proof.
  assert (Hv : forall s, (s = "" \/ _is_valid_path s = true) <->
                         forallb valid_part (segments s) = true).
  { intros s. unfold _is_valid_path. destruct s as [|c s]; simpl.
    - split; [done|by left].
    - split; [by intros [?|?]|by right]. }
  rewrite !Hv. unfold _is_valid_path.
  assert (PyStr.nonempty (a +:+ "/" +:+ b) = true) as ->.
  { destruct a; [done|by rewrite PyStrFacts.append_cons]. }
  simpl. rewrite segments_append_sep, forallb_app. apply andb_true_iff.
Qed.

(** ** What every reachable store keeps *)

(** X12. In every store reached from the empty tree, an entry of a
    [children] dict has a non-empty key free of the reserved
    characters, leads to an object of the store whose [name] is that
    key, and no dict has a key twice. *)
Theorem reachable_entries_named cs :
  (forall i k j, dict_get k (kids (run cs) i) = Some j ->
     PyStr.nonempty k = true /\
     Forall (fun char => PyStr.contains char k = false) reserved_chars /\
     j < length (run cs) /\
     name (node_at (run cs) j) = k) /\
  (forall i, NoDup (dict_keys (kids (run cs) i))).
Proof.
  pose proof (run_wf cs) as Hwf. split.
  - intros i k j Hget.
    destruct (wf_kids _ _ _ _ Hwf Hget) as [Hv Hn].
    unfold valid_part in Hv. apply negb_true_iff, orb_false_iff in Hv as [Hne Hres].
    split_and!.
    + by apply negb_false_iff in Hne.
    + apply Forall_forall. intros char Hin%list_elem_of_In.
      destruct (PyStr.contains char k) eqn:E; [|done].
      assert (existsb (fun char => PyStr.contains char k) reserved_chars = true);
        [|congruence].
      apply existsb_exists. by exists char.
    + by eapply wf_kids_lt.
    + by apply node_at_name.
  - intros i. by apply wf_kids_NoDup.
Qed.

(** X13. In every store reached from the empty tree no object is shared:
    an object is the child of at most one object, under one name, and
    the root is the child of none. *)
Theorem reachable_no_sharing cs :
  (forall i k j i' k',
     dict_get k (kids (run cs) i) = Some j ->
     dict_get k' (kids (run cs) i') = Some j -> i = i' /\ k = k') /\
  (forall i k, dict_get k (kids (run cs) i) <> Some root).
Proof. by destruct (run_tree_store cs) as (_ & Hup & Hro). Qed.

(** X14. In every store reached from the empty tree, below the root the
    store is a finite tree: two walks from the root that end on one
    object took the same path, and a walk has fewer steps than the
    store has objects. *)
Theorem reachable_paths_unique cs :
  (forall p q i,
     walk (run cs) root p = Some i -> walk (run cs) root q = Some i -> p = q) /\
  (forall p i, walk (run cs) root p = Some i -> length p < length (run cs)).
Proof.
  split.
  - intros p q i. apply walk_inj, run_tree_store.
  - intros p i. apply walk_length_lt, run_tree_store.
Qed.

Lemma reachable_paths_unique_witness :
  ["b"] = ["b"] /\ length ["b"] < length (run [Create "a/b"; Move "a/b" "/"]).
Proof.
  destruct (reachable_paths_unique [Create "a/b"; Move "a/b" "/"]) as [Hinj Hlen].
  split; [by apply (Hinj ["b"] ["b"] 2)|by apply (Hlen ["b"] 2)].
Defined.

(** ** create *)

Lemma create_loop_records paths : forall h,
  (create_loop h paths).2 = create_record <$> paths.
Proof.
  induction paths as [|p paths IH]; intros h; simpl; [done|].
  unfold create_one, create_record at 1.
  destruct (_is_valid_path p); simpl.
  - specialize (IH (mkdir_p h root (segments p)).1).
    destruct (create_loop _ paths). simpl in *. by rewrite IH.
  - specialize (IH h). destruct (create_loop _ paths). simpl in *. by rewrite IH.
Qed.

Lemma create_loop_valid_only paths : forall h,
  (create_loop h paths).1 = (create_loop h (List.filter _is_valid_path paths)).1.
Proof.
  induction paths as [|p paths IH]; intros h; simpl; [done|].
  unfold create_one. destruct (_is_valid_path p) eqn:E; simpl.
  - unfold create_one. rewrite E. simpl.
    specialize (IH (mkdir_p h root (segments p)).1).
    by do 2 destruct (create_loop _ _).
  - specialize (IH h). by destruct (create_loop h paths).
Qed.

(** X15. [create] isolates failures: it emits one record per expanded
    sub-path, in order, Created or CreateInvalidName by the validity of
    the sub-path alone, and the store it leaves is the one that the
    valid sub-paths alone would have given. *)
Theorem create_isolates_invalid h path :
  (create h path).2 = create_record <$> _expand_path_list path /\
  (create h path).1
  = (create_loop h (List.filter _is_valid_path (_expand_path_list path))).1.
Proof.
  unfold create. split; [apply create_loop_records|apply create_loop_valid_only].
Qed.

(** X16. [create] only adds: every entry of the store is still there
    afterwards, and every path leads where it led before. *)
Theorem create_only_adds h path :
  wf h ->
  (forall i k j, dict_get k (kids h i) = Some j ->
                 dict_get k (kids (create h path).1 i) = Some j) /\
  (forall parts x, walk h root parts = Some x ->
                   walk (create h path).1 root parts = Some x).
Proof.
  intros Hwf. unfold create.
  destruct (create_loop_spec (_expand_path_list path) h Hwf) as (_ & Hext & _).
  split; [exact Hext|]. intros parts x. by apply walk_extends.
Qed.

Lemma create_only_adds_witness :
  walk (create (run [Create "a/b"]) "a/c,d").1 root ["a"; "b"] = Some 2.
Proof.
  by apply (create_only_adds (run [Create "a/b"]) "a/c,d" (run_wf _)).
Defined.

(** ** list *)

Lemma path_lt_irrefl p : ~ path_lt p p.
Proof.
  induction p as [|k p IH]; simpl; [by intros []|].
  intros [Hlt|[_ Hp]]; [by apply name_lt_irrefl in Hlt|by apply IH].
Qed.

Lemma StronglySorted_path_lt_NoDup paths :
  StronglySorted path_lt paths -> NoDup paths.
Proof.
  induction 1 as [|p paths Hs IH Hall]; constructor; [|done].
  intros Hin. rewrite Forall_forall in Hall.
  by apply (path_lt_irrefl p), Hall.
Qed.

(** X17. The listing of a tree store has one line for each directory,
    and each line is rendered from the path of its directory: the
    indent is its depth, the name its own, the prefix has one cell for
    each directory above it (blank below a last sibling, a bar
    otherwise), and the line carries the glyph of a last sibling
    exactly when no sibling has a greater name. *)
Theorem list_renders_every_directory h :
  tree_store h ->
  exists out paths,
    (forall fuel, length h < fuel -> list_root fuel h = Some (h, out)) /\
    (forall p, p ∈ paths <-> p <> [] /\ is_Some (walk h root p)) /\
    NoDup paths /\
    Forall2 (fun p e =>
               line_at h root 0 "" p = Some e /\
               (e_is_last e = true <->
                forall k, is_Some (walk h root (removelast p ++ [k])) ->
                          String.le k (e_name e)))
            paths out.
Proof.
  intros Ht.
  destruct (list_root_lines h Ht) as (out & paths & Hout & Hlines & Hin & Hsorted).
  exists out, paths. split_and!; [done|done|by apply StronglySorted_path_lt_NoDup|].
  eapply Forall2_impl; [exact Hlines|]. intros p e Hp. split; [done|].
  by apply (line_at_is_last h p root 0 "").
Qed.

Lemma list_renders_every_directory_witness :
  let h := run [Create "a/x"; Create "b/x"] in
  exists out paths,
    list_root 6 h = Some (h, out) /\
    ["b"; "x"] ∈ paths /\ NoDup paths /\ length paths = length out.
Proof.
  intros h.
  destruct (list_renders_every_directory h (run_tree_store _))
    as (out & paths & Hout & Hin & Hnd & Hlines).
  exists out, paths. split_and!; [apply Hout; simpl; lia| |done|].
  - apply Hin. split; [done|]. by eexists.
  - by eapply Forall2_length.
Defined.

(** ** The confirmation prompt *)

(** X18. [_confirm_deletion] accepts a reply exactly when, with the
    white space at its two ends taken off, it spells yes or y in
    letters of either case; white space above 127 is taken off like
    any other, and an answer with anything more in it is a refusal. *)
Theorem _confirm_deletion_accepts :
  (forall reply,
     _confirm_deletion reply = true <->
     PyStr.strip reply ∈
       ["yes"; "yeS"; "yEs"; "yES"; "Yes"; "YeS"; "YEs"; "YES"; "y"; "Y"]) /\
  _confirm_deletion (PyStr.utf8 0xA0 +:+ " YeS" +:+ PyStr.utf8 0x0A) = true /\
  _confirm_deletion "y e s" = false /\
  _confirm_deletion "yes!" = false /\
  _confirm_deletion "" = false.
Proof. split_and!; [apply _confirm_deletion_replies|done..]. Qed.

(** ** Round trips and the root *)

Lemma resolves_walk h path c :
  segments path <> [] -> walk h root (segments path) = Some c ->
  resolves h path = true.
Proof.
  intros Hne Hw.
  assert (PyStr.nonempty path = true) as Hp by (by destruct path).
  destruct (_get_node_and_parent_walk h path c Hp Hw) as (parent & nm & Hg).
  unfold resolves. rewrite Hg.
  destruct parent as [parent|].
  - apply _get_node_and_parent_Some in Hg as (_ & _ & _ & Hnd).
    apply dict_mem_true. by rewrite <- Hnd.
  - unfold _get_node_and_parent in Hg. rewrite Hp in Hg. simpl in Hg.
    destruct (String.eqb path "/") eqn:E.
    { apply String.eqb_eq in E as ->. by destruct Hne. }
    destruct (last (segments path)) eqn:El; [|by apply last_None in El].
    by destruct (walk h root (removelast (segments path))).
Qed.

(** X19. A directory that [create] has just made is deleted without a
    question: for a valid path with a segment and no comma, outside the
    forms of [delete]'s special case, that did not resolve before,
    [create] followed by [delete] reports DeletedSubtree, asks
    nothing, and leaves the path unresolved. *)
Theorem create_delete_round_trip h P reply :
  wf h -> _is_valid_path P = true -> PyStr.contains "," P = false ->
  in_strings P root_forms = false -> segments P <> [] ->
  resolves h P = false ->
  exists h2,
    delete (create h P).1 P reply = (h2, DeletedSubtree, None) /\
    resolves h2 P = false.
Proof.
  intros Hwf Hv Hc Hroot Hseg Hfresh.
  assert ((create h P).1 = (mkdir_p h root (segments P)).1) as ->.
  { unfold create, _expand_path_list. rewrite Hc. simpl. unfold create_one.
    by rewrite Hv. }
  destruct (mkdir_p h root (segments P)) as [h1 c] eqn:Hmk. simpl.
  destruct (mkdir_p_spec _ _ _ _ _ Hwf (wf_root_lt _ Hwf)
              (_is_valid_path_parts _ Hv) Hmk) as (Hwf1 & _ & _ & Hw).
  destruct (mkdir_p_same_or_leaf _ _ _ _ _ Hwf (wf_root_lt _ Hwf) Hmk) as [->|Hleaf].
  { by rewrite (resolves_walk _ _ _ Hseg Hw) in Hfresh. }
  assert (PyStr.nonempty P = true) as Hp by (by destruct P).
  destruct (_get_node_and_parent_walk h1 P c Hp Hw) as (parent & nm & Hg).
  pose proof (resolves_walk _ _ _ Hseg Hw) as Hr. unfold resolves in Hr.
  rewrite Hg in Hr. destruct parent as [parent|]; [|done].
  pose proof (_get_node_and_parent_Some _ _ _ _ _ Hg) as (_ & _ & _ & Hnd).
  assert (delete h1 P reply
          = (set_kids h1 parent (dict_del nm (kids h1 parent)), DeletedSubtree, None))
    as Hdel.
  { rewrite (delete_ordinary _ _ _ Hroot), Hg, <- Hnd. by rewrite Hleaf. }
  eexists. split; [exact Hdel|]. by eapply delete_Deleted_absent.
Qed.

Lemma create_delete_round_trip_witness :
  exists h2,
    delete (create (run [Create "a"]) "a/b/c").1 "a/b/c" "no" = (h2, DeletedSubtree, None) /\
    resolves h2 "a/b/c" = false.
Proof.
  by apply (create_delete_round_trip (run [Create "a"]) "a/b/c" "no" (run_wf _)).
Defined.

(** X20. Outside the forms of its special case, [delete] asks for
    confirmation exactly when the path resolves to a directory that has
    a child. *)
Theorem delete_asks_iff_children h P reply :
  in_strings P root_forms = false ->
  (delete h P reply).2 <> None <->
  exists parent node target_name target_node,
    _get_node_and_parent h P = (Some parent, node, target_name) /\
    dict_get target_name (kids h parent) = Some target_node /\
    kids h target_node <> [].
Proof.
  intros Hord. rewrite (delete_ordinary _ _ _ Hord). split.
  - intros Hasked.
    destruct (_get_node_and_parent h P) as [[[parent|] nd] nm]; [|done].
    destruct (dict_get nm (kids h parent)) as [target|] eqn:Hget; [|done].
    exists parent, nd, nm, target. split_and!; try done.
    intros Hleaf. by rewrite Hleaf in Hasked.
  - intros (parent & nd & nm & target & -> & -> & Hkids).
    destruct (kids h target); [done|]. simpl.
    by destruct (negb (_confirm_deletion reply)).
Qed.

Lemma delete_asks_iff_children_witness :
  (delete (run [Create "a/b"]) "a" "no").2 <> None /\
  ~ (delete (run [Create "a/b"]) "a/b" "no").2 <> None.
Proof.
  split.
  - apply (delete_asks_iff_children (run [Create "a/b"]) "a" "no"); [done|].
    by exists 0, (Some 1), "a", 1.
  - intros H.
    apply (delete_asks_iff_children (run [Create "a/b"]) "a/b" "no") in H
      as (parent & nd & nm & target & Hg & Hget & Hk); [|done].
    vm_compute in Hg. simplify_eq. vm_compute in Hget. by simplify_eq.
Defined.

(** X21. The root cannot be addressed as a directory: a path without a
    segment never resolves, so [move] never moves it, and outside the
    forms of its special case [delete] reports NotFound, asks nothing
    and changes nothing. *)
Theorem root_not_addressable h p :
  segments p = [] ->
  resolves h p = false /\
  (forall destination,
     (move h p destination).2 <> Moved /\ (move h p destination).1 = h) /\
  (forall reply, in_strings p root_forms = false ->
     delete h p reply = (h, NotFound, None)).
Proof.
  intros Hseg.
  assert (_get_node_and_parent h p = (None, Some root, "")) as Hg.
  { unfold _get_node_and_parent.
    destruct (negb (PyStr.nonempty p) || String.eqb p "/"); [done|]. by rewrite Hseg. }
  assert (resolves h p = false) as Hr by (unfold resolves; by rewrite Hg).
  split_and!; [done| |].
  - intros destination.
    destruct (_is_valid_path p) eqn:Hs; [|by rewrite move_invalid by auto].
    destruct (_is_valid_path destination) eqn:Hd; [|by rewrite move_invalid by auto].
    destruct (decide (p = destination)) as [->|Hne]; [by rewrite move_identical|].
    by rewrite move_not_found.
  - intros reply Hord. by rewrite (delete_ordinary _ _ _ Hord), Hg.
Qed.

Lemma root_not_addressable_witness :
  delete (run [Create "a"]) "//" "yes" = (run [Create "a"], NotFound, None) /\
  (move (run [Create "a"]) "/" "a").1 = run [Create "a"].
Proof.
  destruct (root_not_addressable (run [Create "a"]) "//" eq_refl) as (_ & _ & Hd).
  destruct (root_not_addressable (run [Create "a"]) "/" eq_refl) as (_ & Hm & _).
  split; [by apply Hd|apply Hm].
Defined.

Lemma reachable_entries_named_witness :
  name (node_at (run [Create "x/y"; Move "x/y" "/"]) 2) = "y".
Proof.
  by apply (proj1 (reachable_entries_named [Create "x/y"; Move "x/y" "/"]) 0 "y" 2).
Defined.

Lemma reachable_no_sharing_witness :
  (0 = 0 /\ "y" = "y") /\
  dict_get "y" (kids (run [Create "x/y"; Move "x/y" "/"]) 0) <> Some root.
Proof.
  destruct (reachable_no_sharing [Create "x/y"; Move "x/y" "/"]) as [Hup Hro].
  split; [by apply (Hup 0 "y" 2 0 "y")|apply Hro].
Defined.

Lemma _is_valid_path_joined_witness :
  _is_valid_path ("a" +:+ "/" +:+ "b/c") = true /\
  ~ _is_valid_path ("a" +:+ "/" +:+ "b:c") = true.
Proof.
  split.
  - apply (_is_valid_path_joined "a" "b/c"). split; by right.
  - intros H. apply _is_valid_path_joined in H as [_ [?|?]]; done.
Defined.

Lemma failure_leaves_store_witness :
  (move (run [Create "a/b"; Create "c/b"]) "a/b" "c").1 = run [Create "a/b"; Create "c/b"] /\
  (delete (run [Create "a/b"]) "a" "no").1.1 = run [Create "a/b"].
Proof.
  split.
  - by apply (proj1 (failure_leaves_store _ (run_wf _))).
  - apply (proj2 (failure_leaves_store _ (run_wf [Create "a/b"]))). by right.
Defined.

(** ** A destination that respells the source *)

(** X22. [move] compares the two paths as text and tests for a strict
    prefix of segments, so a destination that spells the source's own
    segments otherwise passes: where the node has no child of its own
    name, [move] reports Moved, the node has become its own child, its
    path resolves no more and no path leads to it from the root. *)
Theorem move_onto_respelled_source h source destination src_parent node src_name :
  tree_store h ->
  _is_valid_path source = true -> _is_valid_path destination = true ->
  source <> destination -> segments source = segments destination ->
  _get_node_and_parent h source = (Some src_parent, Some node, src_name) ->
  dict_get src_name (kids h node) = None ->
  exists h',
    move h source destination = (h', Moved) /\
    dict_get src_name (kids h' node) = Some node /\
    resolves h' source = false /\
    (forall parts, walk h' root parts <> Some node).
Proof.
  intros Ht Hs Hd Hne Hseg Hg Hnone.
  pose proof Ht as (Hwf & Hup & Hro).
  pose proof (_get_node_and_parent_Some _ _ _ _ _ Hg) as (_ & Hsplit & Hw & Hnd).
  assert (dict_get src_name (kids h src_parent) = Some node) as Hget by done.
  assert (resolves h source = true) as Hr.
  { unfold resolves. rewrite Hg. apply dict_mem_true. by rewrite Hget. }
  assert (walk h root (segments destination) = Some node) as Hdest.
  { rewrite <- Hseg, Hsplit. apply walk_snoc. by exists src_parent. }
  assert (exists h', move h source destination = (h', Moved) /\
            h' = set_kids (set_kids h node (dict_set src_name node (kids h node)))
                   src_parent
                   (dict_del src_name
                      (kids (set_kids h node (dict_set src_name node (kids h node)))
                         src_parent))) as (h' & Hm & Hh').
  { destruct (move_found h _ _ Hs Hd Hne Hr) as (sp&nd&nm&m&Hg'&Hget'&->).
    rewrite Hg in Hg'. simplify_eq.
    unfold _is_subdirectory. rewrite Hseg, Nat.leb_refl.
    rewrite (mkdir_p_walk _ _ _ _ Hdest).
    rewrite (proj2 (dict_mem_false _ _) Hnone). by eexists. }
  pose proof (wf_kids_lt _ _ _ _ Hwf Hget) as Hlt.
  exists h'. split_and!; [done| | |].
  - subst h'. by apply graft_new.
  - by eapply move_Moved_source_absent.
  - assert (Hstep : forall parts c, c <> node -> walk h' c parts <> Some node).
    { induction parts as [|k parts IH]; intros c Hc; simpl; [congruence|].
      destruct (dict_get k (kids h' c)) as [c1|] eqn:E; [|done].
      destruct (decide (c1 = node)) as [->|Hc1]; [|by apply IH].
      exfalso. subst h'.
      destruct (graft_back h src_parent node node src_name Hget Hlt Hnone _ _ _ E)
        as [[-> _]|E']; [done|].
      destruct (Hup _ _ _ _ _ E' Hget) as [-> ->].
      by rewrite (graft_old h src_parent node node src_name Hget Hlt Hnone) in E. }
    intros parts. apply Hstep. intros <-. by destruct (Hro _ _ Hget).
Qed.

Lemma move_onto_respelled_source_witness :
  exists h',
    move (run [Create "a/b"]) "a/b" "a//b" = (h', Moved) /\
    dict_get "b" (kids h' 2) = Some 2 /\
    resolves h' "a/b" = false /\
    (forall parts, walk h' root parts <> Some 2).
Proof.
  by apply (move_onto_respelled_source (run [Create "a/b"]) "a/b" "a//b" 1 2 "b"
              (run_tree_store _)).
Defined.
